(** * acyclomatic.c: infix to postfix conversion without branches

    A shallow embedding of [acyclomatic.c] and the properties of its
    conversion routine.  The C program converts an arithmetical expression
    (operands [a]-[z], operators [+ - * /], round brackets) to postfix form.
    Every function of the program has one execution path: decisions are
    arithmetic on the results of [check_interval], and the loop over the
    input is the recursion of [convert] through a table of handlers.

    Conventions of the embedding:
    - a [char] or [int] value is a [Z]; the arithmetic of [check_interval] is
      done on 32-bit [int] with the wrap-around written out ([to_int]);
    - the input string is the list of its characters, the terminating
      ['\0'] being implicit at the end of the list;
    - the operator stack is the block of [MAX_STACK_DEPTH] bytes that [main]
      allocates; [stack_top] is kept as an offset from [stack_bottom];
    - [stdout] is the list of the characters printed so far. *)

From Stdlib Require Import ZArith Lia String Ascii.
From stdpp Require Import base list.

Local Open Scope Z_scope.

(** ** Characters *)

Definition char_code (a : ascii) : Z := Z.of_nat (nat_of_ascii a).

(** The characters of a string literal, without the terminator. *)
Definition cstring (s : string) : list Z := map char_code (list_ascii_of_string s).

(** ** Constants of the program *)

Definition ASCII_MAX : Z := 127.

Definition HANDLE_ERROR : Z := 0.
Definition HANDLE_END : Z := 1.
Definition HANDLE_SYMBOL : Z := 2.
Definition HANDLE_ADD_SUB : Z := 3.
Definition HANDLE_MUL_DIV : Z := 4.
Definition HANDLE_OPEN_BRKT : Z := 5.
Definition HANDLE_CLOSE_BRKT : Z := 6.

Definition MAX_STACK_DEPTH : Z := 64.

(** [sizeof(int) * 8] *)
Definition int_bits : Z := 32.

(** ** Machine integers *)

(** The value of an [int] expression, reduced to the 32-bit two's complement
    range. *)
Definition to_int (x : Z) : Z := (x + 2 ^ (int_bits - 1)) mod 2 ^ int_bits - 2 ^ (int_bits - 1).

Definition in_int (x : Z) : Prop := - 2 ^ (int_bits - 1) <= x < 2 ^ (int_bits - 1).

(** [check_interval]:
    [return ~(((high - value) | (value - low)) >> (sizeof(int) * 8 - 1)) & 1;]
    The shift of a negative [int] is the arithmetic one. *)
Definition check_interval (value low high : Z) : Z :=
  Z.land
    (Z.lnot (Z.shiftr (Z.lor (to_int (high - value)) (to_int (value - low))) (int_bits - 1)))
    1.

(** ** The machine: stack block, stack pointer, output *)

(** A byte of the [malloc]ed block is [None] until the program writes it. *)
Record machine : Type := Machine {
  stack : list (option Z);
  stack_top : Z;
  stdout : list Z
}.

(** A computation either returns a value in a new machine state, or
    dereferences [stack_top] outside the block (or at a byte never written),
    which C leaves undefined.  The program has no check of its own for this:
    [Undefined] is the verdict of the embedding, not a report of the program,
    and carries the state at the offending access. *)
Inductive result (A : Type) : Type :=
| Ok (a : A) (m : machine)
| Undefined (m : machine).
Arguments Ok {A} a m.
Arguments Undefined {A} m.

Definition M (A : Type) : Type := machine -> result A.

Definition ret {A} (a : A) : M A := fun m => Ok a m.

Definition bind {A B} (x : M A) (f : A -> M B) : M B :=
  fun m => match x m with
           | Ok a m' => f a m'
           | Undefined m' => Undefined m'
           end.

Notation "'do' x <- e ; k" := (bind e (fun x => k))
  (at level 10, x name, e at level 100, k at level 200).
Notation "e ;; k" := (bind e (fun _ => k))
  (at level 100, k at level 200, right associativity).

(** [**stack_top] as an rvalue. *)
Definition load : M Z := fun m =>
  if (0 <=? stack_top m) && (stack_top m <? MAX_STACK_DEPTH) then
    match stack m !! Z.to_nat (stack_top m) with
    | Some (Some c) => Ok c m
    | _ => Undefined m
    end
  else Undefined m.

(** [**stack_top = c] *)
Definition store (c : Z) : M unit := fun m =>
  if (0 <=? stack_top m) && (stack_top m <? MAX_STACK_DEPTH) then
    Ok tt (Machine (<[Z.to_nat (stack_top m) := Some c]> (stack m)) (stack_top m) (stdout m))
  else Undefined m.

(** [*stack_top += d] *)
Definition move_top (d : Z) : M unit := fun m =>
  Ok tt (Machine (stack m) (stack_top m + d) (stdout m)).

(** [printf("%c", c)] and [printf] of a literal. *)
Definition printf_c (c : Z) : M unit := fun m =>
  Ok tt (Machine (stack m) (stack_top m) (stdout m ++ [c])).

Definition printf_s (s : list Z) : M unit := fun m =>
  Ok tt (Machine (stack m) (stack_top m) (stdout m ++ s)).

Definition newline : Z := 10.

(** ["\nError in the expression\n"] *)
Definition error_message : list Z :=
  newline :: cstring "Error in the expression" ++ [newline].

(** The state in which [main] calls [convert]: the block is allocated, the
    stack pointer is at its bottom and the bottom byte is 0.  [stdout] counts
    the output from that call on. *)
Definition main_machine : machine :=
  Machine (<[0%nat := Some 0]> (replicate (Z.to_nat MAX_STACK_DEPTH) None)) 0 [].

(** ** Stack operations *)

Definition push (c : Z) : M unit :=
  move_top 1 ;; store c.

Definition pop : M Z :=
  do c <- load;
  move_top (- (Z.lxor (check_interval c 0 0) 1)) ;;
  ret c.

Definition pop_mul_div : M Z :=
  do c <- load;
  let cond := Z.lor (check_interval c 42 42) (check_interval c 47 47) in
  let c := c * cond in
  move_top (- cond) ;;
  ret c.

Definition pop0 : M unit :=
  do c <- load;
  move_top (- check_interval c 0 0).

(** ** Printing *)

Definition PRINT_ACTION : Type := Z -> M unit.

Definition print_nothing : PRINT_ACTION := fun _ => ret tt.

Definition print_char : PRINT_ACTION := fun c => printf_c c.

Definition print_call_table : list PRINT_ACTION := [print_nothing; print_char].

(** A call through a table of functions; an index outside the table is
    undefined. *)
Definition call {F : Type} (table : list F) (index : Z) (run : F -> M unit) : M unit :=
  if index <? 0 then Undefined
  else match table !! Z.to_nat index with
       | Some f => run f
       | None => Undefined
       end.

Definition print_symbol (c : Z) : M unit :=
  let call_index := check_interval c 1 ASCII_MAX in
  call print_call_table call_index (fun f => f c).

(** ** Handlers

    A handler receives the character [*str] it was called for and the
    computation [next] that stands for its tail call [convert(++str)]. *)

Definition ACTION : Type := Z -> M unit -> M unit.

Definition handle_error : ACTION := fun _ _ =>
  printf_s error_message.

Definition handle_end : ACTION := fun _ _ =>
  (do c <- pop; print_symbol c) ;;
  (do c <- pop; print_symbol c) ;;
  printf_s [newline].

Definition handle_symbol : ACTION := fun c next =>
  printf_c c ;;
  next.

Definition handle_add_sub : ACTION := fun c next =>
  (do x <- pop; print_symbol x) ;;
  (do x <- pop; print_symbol x) ;;
  push c ;;
  next.

Definition handle_mul_div : ACTION := fun c next =>
  (do x <- pop_mul_div; print_symbol x) ;;
  push c ;;
  next.

Definition handle_open_bracket : ACTION := fun _ next =>
  push 0 ;;
  next.

Definition handle_close_bracket : ACTION := fun _ next =>
  (do x <- pop; print_symbol x) ;;
  (do x <- pop; print_symbol x) ;;
  pop0 ;;
  next.

Definition call_table : list ACTION :=
  [ handle_error; handle_end; handle_symbol; handle_add_sub; handle_mul_div;
    handle_open_bracket; handle_close_bracket ].

(** ** The conversion routine *)

(** The index that [convert] computes for the character [*str]. *)
Definition call_index (c : Z) : Z :=
  let call_index := check_interval c 0 0 * HANDLE_END in
  let call_index := call_index + check_interval c 97 122 * HANDLE_SYMBOL in
  let call_index := call_index + check_interval c 43 43 * HANDLE_ADD_SUB in
  let call_index := call_index + check_interval c 45 45 * HANDLE_ADD_SUB in
  let call_index := call_index + check_interval c 42 42 * HANDLE_MUL_DIV in
  let call_index := call_index + check_interval c 47 47 * HANDLE_MUL_DIV in
  let call_index := call_index + check_interval c 40 40 * HANDLE_OPEN_BRKT in
  let call_index := call_index + check_interval c 41 41 * HANDLE_CLOSE_BRKT in
  call_index.

(** The body of [convert] for the character [c = *str]:
    [call_table[call_index](str)]. *)
Definition dispatch (c : Z) (next : M unit) : M unit :=
  call call_table (call_index c) (fun handler => handler c next).

(** [convert(str)].  At the end of the list [*str] is the terminator; the
    handler chosen for it makes no further call, and the continuation given
    there stands for a read past the end of the string. *)
Fixpoint convert (str : list Z) : M unit :=
  match str with
  | [] => dispatch 0 Undefined
  | c :: rest => dispatch c (convert rest)
  end.

(** One character handled, with the tail call left out. *)
Definition step (c : Z) : M unit := dispatch c (ret tt).

(** The characters of [prefix] handled one after the other. *)
Fixpoint walk (prefix : list Z) : M unit :=
  match prefix with
  | [] => ret tt
  | c :: rest => step c ;; walk rest
  end.

(** What a run has printed, up to its end or to the undefined access. *)
Definition output {A} (r : result A) : list Z :=
  match r with
  | Ok _ m => stdout m
  | Undefined m => stdout m
  end.

(** ** The categories of the specification *)

Inductive category : Type :=
| EndOfInput
| Operand
| AdditiveOp
| MultiplicativeOp
| OpenBracket
| CloseBracket
| Invalid.

#[global] Instance category_eq_dec : EqDecision category.
Proof. solve_decision. Defined.

(** The classifier as the specification words it: the terminator, [a]-[z],
    [+] and [-], [*] and [/], [(], [)], and [Invalid] for the rest. *)
Definition classify (c : Z) : category :=
  if c =? 0 then EndOfInput
  else if (97 <=? c) && (c <=? 122) then Operand
  else if (c =? 43) || (c =? 45) then AdditiveOp
  else if (c =? 42) || (c =? 47) then MultiplicativeOp
  else if c =? 40 then OpenBracket
  else if c =? 41 then CloseBracket
  else Invalid.

(** The place of each category's handler in [call_table]. *)
Definition handler_index (k : category) : Z :=
  match k with
  | Invalid => HANDLE_ERROR
  | EndOfInput => HANDLE_END
  | Operand => HANDLE_SYMBOL
  | AdditiveOp => HANDLE_ADD_SUB
  | MultiplicativeOp => HANDLE_MUL_DIV
  | OpenBracket => HANDLE_OPEN_BRKT
  | CloseBracket => HANDLE_CLOSE_BRKT
  end.

Definition handler_of (k : category) : ACTION :=
  match k with
  | Invalid => handle_error
  | EndOfInput => handle_end
  | Operand => handle_symbol
  | AdditiveOp => handle_add_sub
  | MultiplicativeOp => handle_mul_div
  | OpenBracket => handle_open_bracket
  | CloseBracket => handle_close_bracket
  end.

(** The values a [char] can have, whether [char] is signed or not. *)
Definition is_char (c : Z) : Prop := -128 <= c <= 255.

(** The number of interval checks of [convert] that accept [c]. *)
Definition checks_passed (c : Z) : Z :=
  check_interval c 0 0 + check_interval c 97 122 + check_interval c 43 43
  + check_interval c 45 45 + check_interval c 42 42 + check_interval c 47 47
  + check_interval c 40 40 + check_interval c 41 41.

(** ** Expressions *)

Definition is_operand (c : Z) : bool := (97 <=? c) && (c <=? 122).
Definition is_add (c : Z) : bool := (c =? 43) || (c =? 45).
Definition is_mul (c : Z) : bool := (c =? 42) || (c =? 47).
Definition is_operator (c : Z) : bool := is_add c || is_mul c.

(** The characters an expression is built from: operands, the four
    operators and the two round brackets. *)
Definition in_alphabet (c : Z) : bool :=
  is_operand c || is_operator c || (c =? 40) || (c =? 41).

(** The operand characters of a sequence, in their order. *)
Definition operands (l : list Z) : list Z := List.filter is_operand l.

(** The number of brackets open after [str], starting from [d] open ones;
    [None] when a close bracket comes with no bracket open. *)
Fixpoint nesting (d : nat) (str : list Z) : option nat :=
  match str with
  | [] => Some d
  | c :: rest =>
      if c =? 40 then nesting (S d) rest
      else if c =? 41 then
        match d with
        | O => None
        | S d' => nesting d' rest
        end
      else nesting d rest
  end.

(** The largest number of brackets open at a time while [str] is read. *)
Fixpoint max_nesting (d : nat) (str : list Z) : nat :=
  match str with
  | [] => d
  | c :: rest =>
      if c =? 40 then Nat.max d (max_nesting (S d) rest)
      else if c =? 41 then Nat.max d (max_nesting (Nat.pred d) rest)
      else max_nesting d rest
  end.

(** An expression in the wide sense of the properties below: only
    characters of the alphabet, and every bracket matched. *)
Definition balanced (str : list Z) : Prop :=
  Forall (fun c => in_alphabet c = true) str /\ nesting 0 str = Some 0%nat.

(** [n] brackets around the operand [a]. *)
Definition nested (n : nat) : list Z := replicate n 40 ++ [97] ++ replicate n 41.

(** ** The live part of the stack *)

(** [stack_is stk m]: the bytes of the block from the stack pointer down to
    the bottom are the entries of [stk], the top one first. *)
Definition stack_is (stk : list Z) (m : machine) : Prop :=
  length (stack m) = Z.to_nat MAX_STACK_DEPTH /\
  stack_top m = Z.of_nat (length stk) - 1 /\
  take (length stk) (stack m) = map Some (rev stk).

(** The pending operators of one bracket scope, the top one first: none,
    one operator, or a multiplicative one above an additive one. *)
Definition pending (ops : list Z) : bool :=
  match ops with
  | [] => true
  | [x] => is_operator x
  | [x; y] => is_mul x && is_add y
  | _ => false
  end.

(** The stack made of the scopes [scs], the innermost first: each scope is
    its pending operators above its sentinel; the sentinel of the outermost
    scope is the 0 at the bottom of the stack. *)
Definition flatten (scs : list (list Z)) : list Z :=
  concat (map (fun ops => ops ++ [0]) scs).

Definition scope_invariant (m : machine) : Prop :=
  exists scs, scs <> [] /\ stack_is (flatten scs) m /\
              Forall (fun ops => pending ops = true) scs.

(** The two guarded pops that the handlers of [+ -], [)] and the end of the
    input start with. *)
Definition flush : M unit :=
  (do x <- pop; print_symbol x) ;;
  (do x <- pop; print_symbol x).

(** The effect of one character on the scopes, and what it makes the
    program print (used to follow the program in the proofs). *)
Definition next_scopes (c : Z) (scs : list (list Z)) : list (list Z) :=
  match classify c with
  | AdditiveOp =>
      match scs with
      | _ :: outer => [c] :: outer
      | [] => []
      end
  | MultiplicativeOp =>
      match scs with
      | (x :: ops) :: outer => (if is_mul x then c :: ops else c :: x :: ops) :: outer
      | [] :: outer => [c] :: outer
      | [] => []
      end
  | OpenBracket => [] :: scs
  | CloseBracket => tl scs
  | _ => scs
  end.

Definition emitted (c : Z) (scs : list (list Z)) : list Z :=
  match classify c with
  | Operand => [c]
  | AdditiveOp | CloseBracket => hd [] scs
  | MultiplicativeOp =>
      match scs with
      | (x :: _) :: _ => if is_mul x then [x] else []
      | _ => []
      end
  | _ => []
  end.

Fixpoint run_scopes (str : list Z) (scs : list (list Z)) : list (list Z) :=
  match str with
  | [] => scs
  | c :: rest => run_scopes rest (next_scopes c scs)
  end.

Fixpoint run_emitted (str : list Z) (scs : list (list Z)) : list Z :=
  match str with
  | [] => []
  | c :: rest => emitted c scs ++ run_emitted rest (next_scopes c scs)
  end.

Definition expression_char (c : Z) : bool := is_operand c || is_operator c.

(** A run of [convert] from [main]'s state that comes to its end and has
    printed [postfix] and the newline of [handle_end]. *)
Definition converts_to (infix postfix : string) : Prop :=
  exists m, convert (cstring infix) main_machine = Ok tt m /\
            stdout m = cstring postfix ++ [newline].

(** ** Expressions as trees *)

(** An arithmetical expression: an operand, a binary operation, or an
    expression in round brackets. *)
Inductive expr : Type :=
| Var (c : Z)
| Bin (op : Z) (l r : expr)
| Paren (e : expr).

(** The expression written in the usual way, and in postfix form. *)
Fixpoint infix (e : expr) : list Z :=
  match e with
  | Var c => [c]
  | Bin op l r => infix l ++ op :: infix r
  | Paren e => 40 :: infix e ++ [41]
  end.

Fixpoint postfix (e : expr) : list Z :=
  match e with
  | Var c => [c]
  | Bin op l r => postfix l ++ postfix r ++ [op]
  | Paren e => postfix e
  end.

(** How tightly the top of a tree binds: 2 for an operand or a bracketed
    expression, 1 for a product or quotient, 0 for a sum or difference. *)
Definition level (e : expr) : nat :=
  match e with
  | Var _ | Paren _ => 2
  | Bin op _ _ => if is_mul op then 1 else 0
  end.

(** The tree is the one that its written form stands for: operands are
    [a]-[z], operators are the four, [*] and [/] bind tighter than [+] and
    [-], and operators of the same priority group to the left. *)
Fixpoint well_formed (e : expr) : bool :=
  match e with
  | Var c => is_operand c
  | Paren e => well_formed e
  | Bin op l r =>
      is_operator op && well_formed l && well_formed r &&
      (if is_mul op then Nat.leb 1 (level l) && Nat.leb 2 (level r)
       else Nat.leb 1 (level r))
  end.

(** The scopes on which the written form of [e] may start: any for an
    operand or bracketed expression, no [*] or [/] pending for a product,
    nothing pending for a sum. *)
Definition fits (e : expr) (sc : list Z) : Prop :=
  level e = 2%nat \/
  (level e = 1%nat /\ (sc = [] \/ exists a, sc = [a] /\ is_add a = true)) \/
  sc = [].

(** The characters of a sequence that are not brackets. *)
Definition symbols (l : list Z) : list Z :=
  List.filter (fun c => negb ((c =? 40) || (c =? 41))) l.

(** ** The program entry point *)

(** The characters of the C string that starts the sequence [s]. *)
Fixpoint until_nul (s : list Z) : list Z :=
  match s with
  | [] => []
  | c :: rest => if c =? 0 then [] else c :: until_nul rest
  end.

(** [stack_bottom = malloc(MAX_STACK_DEPTH); stack_top = stack_bottom;]
    with the allocation taken to succeed. *)
Definition malloc_stack : M unit := fun m =>
  Ok tt (Machine (replicate (Z.to_nat MAX_STACK_DEPTH) None) 0 (stdout m)).

(** [main]: the expression is the last of the arguments [argv], each given
    as the characters of its string.  The run starts with no block and
    nothing printed; the block is freed at the end and is not part of what a
    caller can see. *)
Definition main (argv : list (list Z)) : result unit :=
  let argc := Z.of_nat (length argv) in
  let before := Machine [] 0 [] in
  if argc - 1 <? 0 then Undefined before
  else match argv !! Z.to_nat (argc - 1) with
       | None => Undefined before
       | Some input_str =>
           (printf_s (cstring "INPUT:  " ++ until_nul input_str ++ [newline]) ;;
            printf_s (cstring "OUTPUT: ") ;;
            malloc_stack ;;
            store 0 ;;
            convert input_str) before
       end.

(** A result with [o0] put before what it has printed. *)
Definition printed_after {A} (o0 : list Z) (r : result A) : result A :=
  match r with
  | Ok a m => Ok a (Machine (stack m) (stack_top m) (o0 ++ stdout m))
  | Undefined m => Undefined (Machine (stack m) (stack_top m) (o0 ++ stdout m))
  end.

(** A computation that only adds to the output: run after [o0] has been
    printed, it does what it does without, with [o0] in front. *)
Definition appends_only {A} (x : M A) : Prop :=
  forall s t o o0,
    x (Machine s t (o0 ++ o)) = printed_after o0 (x (Machine s t o)).

(** * Properties *)

(** ** The interval check *)

Section CheckInterval.

Lemma to_int_small x : in_int x -> to_int x = x.
Proof.
  unfold in_int, to_int, int_bits. simpl. intros H.
  rewrite Z.mod_small; lia.
Qed.

Lemma sign_shift x :
  in_int x -> Z.shiftr x (int_bits - 1) = if x <? 0 then -1 else 0.
Proof.
  unfold in_int, int_bits. simpl. intros H.
  rewrite Z.shiftr_div_pow2 by lia.
  destruct (Z.ltb_spec x 0).
  - symmetry. apply Z.div_unique with (r := x + 2 ^ 31); lia.
  - apply Z.div_small. lia.
Qed.

Lemma check_interval_spec value low high :
  in_int (high - value) -> in_int (value - low) ->
  check_interval value low high = if (low <=? value) && (value <=? high) then 1 else 0.
Proof.
  intros Hh Hl. unfold check_interval.
  rewrite !to_int_small by assumption.
  rewrite Z.shiftr_lor, !sign_shift by assumption.
  destruct (Z.ltb_spec (high - value) 0), (Z.ltb_spec (value - low) 0),
    (Z.leb_spec low value), (Z.leb_spec value high); simpl; try reflexivity; lia.
Qed.

(** For the arguments the program passes no difference overflows. *)
Lemma check_interval_char c low high :
  is_char c -> 0 <= low <= 127 -> 0 <= high <= 127 ->
  check_interval c low high = if (low <=? c) && (c <=? high) then 1 else 0.
Proof.
  unfold is_char. intros Hc Hl Hh.
  apply check_interval_spec; unfold in_int, int_bits; simpl; lia.
Qed.

End CheckInterval.

(** ** The classifier *)

(** Each interval check, as a number tied to its condition. *)
Lemma check_interval_cases c low high :
  is_char c -> 0 <= low <= 127 -> 0 <= high <= 127 ->
  (low <= c <= high /\ check_interval c low high = 1) \/
  ((c < low \/ high < c) /\ check_interval c low high = 0).
Proof.
  intros Hc Hl Hh. rewrite check_interval_char by assumption.
  destruct (Z.leb_spec low c), (Z.leb_spec c high); simpl; lia.
Qed.

Ltac interval_checks c Hc :=
  pose proof (check_interval_cases c 0 0 Hc ltac:(lia) ltac:(lia));
  pose proof (check_interval_cases c 97 122 Hc ltac:(lia) ltac:(lia));
  pose proof (check_interval_cases c 43 43 Hc ltac:(lia) ltac:(lia));
  pose proof (check_interval_cases c 45 45 Hc ltac:(lia) ltac:(lia));
  pose proof (check_interval_cases c 42 42 Hc ltac:(lia) ltac:(lia));
  pose proof (check_interval_cases c 47 47 Hc ltac:(lia) ltac:(lia));
  pose proof (check_interval_cases c 40 40 Hc ltac:(lia) ltac:(lia));
  pose proof (check_interval_cases c 41 41 Hc ltac:(lia) ltac:(lia));
  generalize dependent (check_interval c 0 0);
  generalize dependent (check_interval c 97 122);
  generalize dependent (check_interval c 43 43);
  generalize dependent (check_interval c 45 45);
  generalize dependent (check_interval c 42 42);
  generalize dependent (check_interval c 47 47);
  generalize dependent (check_interval c 40 40);
  generalize dependent (check_interval c 41 41);
  intros.

(** The tests of [classify], taken in their order. *)
Ltac classify_cases c :=
  unfold classify;
  destruct (Z.eqb_spec c 0); [|
  destruct (Z.leb_spec 97 c), (Z.leb_spec c 122); simpl; [| | |];
  try (destruct (Z.eqb_spec c 43); [|
       destruct (Z.eqb_spec c 45); [|
       destruct (Z.eqb_spec c 42); [|
       destruct (Z.eqb_spec c 47); [|
       destruct (Z.eqb_spec c 40); [|
       destruct (Z.eqb_spec c 41)]]]]])]; simpl.

Lemma call_index_classify c :
  is_char c -> call_index c = handler_index (classify c).
Proof.
  intros Hc. unfold call_index.
  unfold HANDLE_END, HANDLE_SYMBOL, HANDLE_ADD_SUB, HANDLE_MUL_DIV,
    HANDLE_OPEN_BRKT, HANDLE_CLOSE_BRKT.
  interval_checks c Hc.
  classify_cases c; unfold HANDLE_ERROR, HANDLE_END, HANDLE_SYMBOL,
    HANDLE_ADD_SUB, HANDLE_MUL_DIV, HANDLE_OPEN_BRKT, HANDLE_CLOSE_BRKT; lia.
Qed.

Lemma checks_passed_classify c :
  is_char c -> checks_passed c = if decide (classify c = Invalid) then 0 else 1.
Proof.
  intros Hc. unfold checks_passed.
  interval_checks c Hc.
  classify_cases c;
    try case_decide; try discriminate; try congruence; lia.
Qed.

Lemma call_table_handler k :
  call_table !! Z.to_nat (handler_index k) = Some (handler_of k).
Proof. destruct k; reflexivity. Qed.

Lemma dispatch_classify c next :
  is_char c -> dispatch c next = handler_of (classify c) c next.
Proof.
  intros Hc. unfold dispatch, call.
  rewrite call_index_classify by assumption.
  rewrite call_table_handler.
  destruct (classify c); reflexivity.
Qed.

(** ** The monad *)

Lemma bind_assoc {A B C} (x : M A) (f : A -> M B) (g : B -> M C) m :
  bind (bind x f) g m = bind x (fun a => bind (f a) g) m.
Proof. unfold bind. destruct (x m); reflexivity. Qed.

Lemma bind_ret_r (x : M unit) m : bind x (fun _ => ret tt) m = x m.
Proof. unfold bind, ret. destruct (x m) as [[] m'|m']; reflexivity. Qed.

Lemma bind_ok {A B} (x : M A) (f : A -> M B) m a m' :
  x m = Ok a m' -> bind x f m = f a m'.
Proof. unfold bind. intros ->. reflexivity. Qed.

Lemma bind_undefined {A B} (x : M A) (f : A -> M B) m m' :
  x m = Undefined m' -> bind x f m = Undefined m'.
Proof. unfold bind. intros ->. reflexivity. Qed.

Lemma bind_ext {A B} (x : M A) (f g : A -> M B) m :
  (forall a m', f a m' = g a m') -> bind x f m = bind x g m.
Proof. intros H. unfold bind. destruct (x m); [apply H|reflexivity]. Qed.

(** ** Stack operations on the live part of the stack *)

Section StackOps.

Implicit Types (stk : list Z) (m : machine).

Lemma stack_is_length stk m :
  stack_is stk m -> (length stk <= Z.to_nat MAX_STACK_DEPTH)%nat.
Proof.
  intros (Hlen & _ & Htake).
  apply (f_equal length) in Htake.
  rewrite length_take, length_map, length_rev in Htake. lia.
Qed.

Lemma stack_is_stdout stk s t o o' :
  stack_is stk (Machine s t o) -> stack_is stk (Machine s t o').
Proof. unfold stack_is. simpl. tauto. Qed.

Lemma stack_is_top stk x m :
  stack_is (x :: stk) m ->
  stack m !! length stk = Some (Some x) /\ (length stk < Z.to_nat MAX_STACK_DEPTH)%nat.
Proof.
  intros H. pose proof (stack_is_length _ _ H) as Hle.
  destruct H as (Hlen & Htop & Htake). simpl in *.
  split; [|lia].
  rewrite <- (lookup_take_lt (stack m) (S (length stk))) by lia.
  rewrite Htake, map_app, lookup_app_r; rewrite length_map, length_rev; [|lia].
  rewrite Nat.sub_diag. reflexivity.
Qed.

Lemma stack_is_tail stk x s t o :
  stack_is (x :: stk) (Machine s t o) -> stack_is stk (Machine s (t - 1) o).
Proof.
  intros (Hlen & Htop & Htake). simpl in *.
  repeat split; simpl; [assumption|lia|].
  apply (f_equal (take (length stk))) in Htake.
  rewrite take_take, Nat.min_l in Htake by lia.
  rewrite Htake, map_app, take_app_length'; [reflexivity|].
  rewrite length_map, length_rev. reflexivity.
Qed.

Lemma load_top stk x m : stack_is (x :: stk) m -> load m = Ok x m.
Proof.
  intros H. destruct (stack_is_top _ _ _ H) as [Hx Hlt].
  destruct H as (Hlen & Htop & _). simpl in Htop.
  unfold load. rewrite Htop.
  replace (Z.of_nat (S (length stk)) - 1) with (Z.of_nat (length stk)) by lia.
  rewrite Nat2Z.id, Hx.
  unfold MAX_STACK_DEPTH in *.
  destruct (Z.leb_spec 0 (Z.of_nat (length stk))); [|lia].
  destruct (Z.ltb_spec (Z.of_nat (length stk)) 64); [|lia].
  reflexivity.
Qed.

Lemma push_inside stk c m :
  stack_is stk m -> (length stk < Z.to_nat MAX_STACK_DEPTH)%nat ->
  exists m', push c m = Ok tt m' /\ stack_is (c :: stk) m' /\ stdout m' = stdout m.
Proof.
  intros (Hlen & Htop & Htake) Hlt. destruct m as [s t o]. simpl in *.
  unfold push, bind, move_top, store. simpl. subst t.
  replace (Z.of_nat (length stk) - 1 + 1) with (Z.of_nat (length stk)) by lia.
  unfold MAX_STACK_DEPTH in *.
  destruct (Z.leb_spec 0 (Z.of_nat (length stk))); [|lia].
  destruct (Z.ltb_spec (Z.of_nat (length stk)) 64); [|lia].
  simpl. eexists. split; [reflexivity|]. split; [|reflexivity].
  rewrite Nat2Z.id. repeat split; simpl.
  - rewrite length_insert. assumption.
  - lia.
  - rewrite (take_S_r _ _ (Some c)).
    + rewrite take_insert_ge by lia. rewrite Htake, map_app. reflexivity.
    + apply list_lookup_insert_eq. lia.
Qed.

Lemma push_outside stk c m :
  stack_is stk m -> length stk = Z.to_nat MAX_STACK_DEPTH ->
  exists m', push c m = Undefined m' /\ stack_top m' = MAX_STACK_DEPTH /\
             stdout m' = stdout m.
Proof.
  intros (Hlen & Htop & Htake) Hfull. destruct m as [s t o]. simpl in *.
  unfold push, bind, move_top, store. simpl. subst t. rewrite Hfull.
  unfold MAX_STACK_DEPTH. simpl. eexists. split; [reflexivity|].
  split; reflexivity.
Qed.

Lemma is_operator_cases x :
  is_operator x = true -> x = 42 \/ x = 43 \/ x = 45 \/ x = 47.
Proof.
  unfold is_operator, is_add, is_mul. intros H.
  destruct (Z.eqb_spec x 43), (Z.eqb_spec x 45), (Z.eqb_spec x 42),
    (Z.eqb_spec x 47); simpl in H; try discriminate; lia.
Qed.

Lemma pop_entry stk x s t o :
  stack_is (x :: stk) (Machine s t o) -> is_char x -> x <> 0 ->
  pop (Machine s t o) = Ok x (Machine s (t - 1) o).
Proof.
  intros H Hc Hx. unfold pop.
  rewrite (bind_ok _ _ _ _ _ (load_top _ _ _ H)).
  rewrite check_interval_char by (assumption || lia).
  destruct (Z.leb_spec 0 x), (Z.leb_spec x 0); simpl; try lia; reflexivity.
Qed.

Lemma pop_sentinel stk m : stack_is (0 :: stk) m -> pop m = Ok 0 m.
Proof.
  intros H. unfold pop.
  rewrite (bind_ok _ _ _ _ _ (load_top _ _ _ H)).
  destruct m as [s t o]. unfold bind, move_top, ret. simpl.
  rewrite Z.add_0_r. reflexivity.
Qed.

Lemma print_symbol_printable x m :
  1 <= x <= 127 ->
  print_symbol x m = Ok tt (Machine (stack m) (stack_top m) (stdout m ++ [x])).
Proof.
  intros Hx. unfold print_symbol, ASCII_MAX.
  rewrite check_interval_char by (unfold is_char; lia).
  destruct (Z.leb_spec 1 x), (Z.leb_spec x 127); simpl; try lia; reflexivity.
Qed.

Lemma print_symbol_other x m :
  is_char x -> ~ 1 <= x <= 127 -> print_symbol x m = Ok tt m.
Proof.
  intros Hc Hx. unfold print_symbol, ASCII_MAX.
  rewrite check_interval_char by (assumption || lia).
  destruct (Z.leb_spec 1 x), (Z.leb_spec x 127); simpl; try lia; reflexivity.
Qed.

(** A guarded pop on an operator: the operator leaves the stack and is
    printed. *)
Lemma pop_print_entry stk x m :
  stack_is (x :: stk) m -> is_operator x = true ->
  exists m1, (do x <- pop; print_symbol x) m = Ok tt m1 /\ stack_is stk m1 /\
             stdout m1 = stdout m ++ [x] /\ stack m1 = stack m.
Proof.
  intros H Hop. destruct m as [s t o].
  assert (Hx : 1 <= x <= 127) by (destruct (is_operator_cases x Hop) as [|[|[|]]]; lia).
  rewrite (bind_ok _ _ _ _ _ (pop_entry _ _ _ _ _ H ltac:(unfold is_char; lia) ltac:(lia))).
  rewrite print_symbol_printable by assumption. simpl.
  eexists. split; [reflexivity|]. split; [|split; reflexivity].
  apply (stack_is_tail _ _ _ _ _ H).
Qed.

(** A guarded pop on a sentinel changes nothing. *)
Lemma pop_print_sentinel stk m :
  stack_is (0 :: stk) m -> (do x <- pop; print_symbol x) m = Ok tt m.
Proof.
  intros H. rewrite (bind_ok _ _ _ _ _ (pop_sentinel _ _ H)).
  apply print_symbol_other; unfold is_char; lia.
Qed.

(** The two guarded pops take the operators [ops] of the top scope, at most
    two, and stop at what is below. *)
Lemma flush_scope ops below m :
  stack_is (ops ++ below) m ->
  Forall (fun x => is_operator x = true) ops ->
  (length ops = 2%nat \/ exists b, below = 0 :: b) ->
  (length ops <= 2)%nat ->
  exists m1, flush m = Ok tt m1 /\ stack_is below m1 /\
             stdout m1 = stdout m ++ ops /\ stack m1 = stack m.
Proof.
  intros H Hops Hbelow Hlen. unfold flush.
  destruct ops as [|x [|y [|z ops]]]; simpl in *; try lia.
  - destruct Hbelow as [|[b ->]]; [lia|].
    rewrite (bind_ok _ _ _ _ _ (pop_print_sentinel _ _ H)). cbv beta.
    rewrite (pop_print_sentinel _ _ H).
    exists m. rewrite app_nil_r. auto.
  - destruct Hbelow as [|[b ->]]; [lia|].
    inversion Hops as [|? ? Hx _]; subst.
    destruct (pop_print_entry _ _ _ H Hx) as (m1 & E1 & H1 & O1 & S1).
    rewrite (bind_ok _ _ _ _ _ E1). cbv beta.
    rewrite (pop_print_sentinel _ _ H1).
    exists m1. auto.
  - inversion Hops as [|? ? Hx Hops']; subst.
    inversion Hops' as [|? ? Hy _]; subst.
    destruct (pop_print_entry _ _ _ H Hx) as (m1 & E1 & H1 & O1 & S1).
    destruct (pop_print_entry _ _ _ H1 Hy) as (m2 & E2 & H2 & O2 & S2).
    rewrite (bind_ok _ _ _ _ _ E1). cbv beta. rewrite E2.
    exists m2. split; [reflexivity|]. split; [assumption|]. split.
    + rewrite O2, O1, <- app_assoc. reflexivity.
    + congruence.
Qed.

(** [pop_mul_div] on [*] or [/]. *)
Lemma pop_mul_div_entry stk x s t o :
  stack_is (x :: stk) (Machine s t o) -> is_mul x = true ->
  pop_mul_div (Machine s t o) = Ok x (Machine s (t - 1) o).
Proof.
  intros H Hx. unfold pop_mul_div.
  rewrite (bind_ok _ _ _ _ _ (load_top _ _ _ H)).
  unfold is_mul in Hx.
  destruct (Z.eqb_spec x 42) as [->|]; [reflexivity|].
  destruct (Z.eqb_spec x 47) as [->|]; [reflexivity|discriminate].
Qed.

(** [pop_mul_div] on anything else leaves the stack as it is. *)
Lemma pop_mul_div_other stk x m :
  stack_is (x :: stk) m -> is_char x -> is_mul x = false ->
  pop_mul_div m = Ok 0 m.
Proof.
  intros H Hc Hx. unfold pop_mul_div.
  rewrite (bind_ok _ _ _ _ _ (load_top _ _ _ H)).
  rewrite !check_interval_char by (assumption || lia).
  unfold is_mul in Hx.
  destruct (Z.eqb_spec x 42), (Z.eqb_spec x 47); try discriminate.
  destruct (Z.leb_spec 42 x), (Z.leb_spec x 42), (Z.leb_spec 47 x), (Z.leb_spec x 47);
    simpl; try lia; destruct m as [s t o]; unfold bind, move_top, ret; simpl;
    rewrite Z.mul_0_r, Z.add_0_r; reflexivity.
Qed.

(** [pop0] on a sentinel removes it. *)
Lemma pop0_sentinel stk s t o :
  stack_is (0 :: stk) (Machine s t o) ->
  pop0 (Machine s t o) = Ok tt (Machine s (t - 1) o).
Proof.
  intros H. unfold pop0.
  rewrite (bind_ok _ _ _ _ _ (load_top _ _ _ H)). reflexivity.
Qed.

End StackOps.

(** ** The handlers, one character at a time *)

Lemma in_alphabet_classify c :
  in_alphabet c = true ->
  is_char c /\
  ((classify c = Operand /\ is_operand c = true) \/
   (classify c = AdditiveOp /\ is_add c = true) \/
   (classify c = MultiplicativeOp /\ is_mul c = true) \/
   (classify c = OpenBracket /\ c = 40) \/
   (classify c = CloseBracket /\ c = 41)).
Proof.
  unfold in_alphabet, is_operator, is_operand, is_add, is_mul, is_char, classify.
  intros H.
  destruct (Z.eqb_spec c 0) as [->|]; [discriminate|].
  destruct (Z.leb_spec 97 c), (Z.leb_spec c 122); simpl in *;
    try (split; [lia|]; left; split; reflexivity);
    (destruct (Z.eqb_spec c 43); simpl in *; [split; [lia|tauto]|];
     destruct (Z.eqb_spec c 45); simpl in *; [split; [lia|tauto]|];
     destruct (Z.eqb_spec c 42); simpl in *; [split; [lia|tauto]|];
     destruct (Z.eqb_spec c 47); simpl in *; [split; [lia|tauto]|];
     destruct (Z.eqb_spec c 40); simpl in *; [split; [lia|tauto]|];
     destruct (Z.eqb_spec c 41); simpl in *; [split; [lia|tauto]|discriminate]).
Qed.

Ltac run_binds :=
  unfold bind, ret;
  repeat match goal with
         | |- context [match ?x with Ok _ _ => _ | Undefined _ => _ end] =>
             destruct x as [[] ?|?]; cbv beta iota
         end;
  try reflexivity.

(** A handler that goes on is its own work followed by the tail call. *)
Lemma dispatch_step c next m :
  in_alphabet c = true -> dispatch c next m = (step c ;; next) m.
Proof.
  intros Hc. destruct (in_alphabet_classify c Hc) as [Hchar Hk].
  unfold step. rewrite !dispatch_classify by assumption.
  destruct Hk as [[-> _]|[[-> _]|[[-> _]|[[-> _]|[-> _]]]]]; simpl;
    unfold handle_symbol, handle_add_sub, handle_mul_div, handle_open_bracket,
      handle_close_bracket; run_binds.
Qed.

(** The handler of the terminator: the two guarded pops and a newline. *)
Lemma dispatch_end next m :
  dispatch 0 next m = (flush ;; printf_s [newline]) m.
Proof.
  rewrite dispatch_classify by (unfold is_char; lia). simpl.
  unfold handle_end, flush. run_binds.
Qed.

Lemma dispatch_invalid c next m :
  is_char c -> classify c = Invalid -> dispatch c next m = printf_s error_message m.
Proof.
  intros Hc Hk. rewrite dispatch_classify by assumption. rewrite Hk. reflexivity.
Qed.

(** [convert] on a sequence that starts with characters of the alphabet
    handles these one by one and goes on with the rest. *)
Lemma convert_app p q m :
  Forall (fun c => in_alphabet c = true) p ->
  convert (p ++ q) m = (walk p ;; convert q) m.
Proof.
  intros Hp. revert m. induction Hp as [|c p Hc Hp IH]; intros m.
  - reflexivity.
  - simpl. rewrite dispatch_step by assumption.
    rewrite bind_assoc. apply bind_ext. intros _ m1. apply IH.
Qed.

Lemma convert_end m : convert [] m = (flush ;; printf_s [newline]) m.
Proof. apply dispatch_end. Qed.

Lemma walk_app p q m : walk (p ++ q) m = (walk p ;; walk q) m.
Proof.
  revert m. induction p as [|c p IH]; intros m.
  - reflexivity.
  - simpl. rewrite bind_assoc. apply bind_ext. intros _ m1. apply IH.
Qed.

Lemma step_operand c m :
  is_char c -> classify c = Operand ->
  step c m = Ok tt (Machine (stack m) (stack_top m) (stdout m ++ [c])).
Proof.
  intros Hc Hk. unfold step. rewrite dispatch_classify, Hk by assumption.
  reflexivity.
Qed.

Lemma step_add_sub c m :
  is_char c -> classify c = AdditiveOp -> step c m = (flush ;; push c) m.
Proof.
  intros Hc Hk. unfold step. rewrite dispatch_classify, Hk by assumption.
  simpl. unfold handle_add_sub, flush. run_binds.
Qed.

Lemma step_mul_div c m :
  is_char c -> classify c = MultiplicativeOp ->
  step c m = ((do x <- pop_mul_div; print_symbol x) ;; push c) m.
Proof.
  intros Hc Hk. unfold step. rewrite dispatch_classify, Hk by assumption.
  simpl. unfold handle_mul_div. run_binds.
Qed.

Lemma step_open_bracket m : step 40 m = push 0 m.
Proof.
  unfold step. rewrite dispatch_classify by (unfold is_char; lia).
  simpl. unfold handle_open_bracket. apply bind_ret_r.
Qed.

Lemma step_close_bracket m : step 41 m = (flush ;; pop0) m.
Proof.
  unfold step. rewrite dispatch_classify by (unfold is_char; lia).
  simpl. unfold handle_close_bracket, flush. run_binds.
Qed.

(** ** Scopes *)

Lemma flatten_cons sc outer : flatten (sc :: outer) = sc ++ 0 :: flatten outer.
Proof. unfold flatten. simpl. rewrite <- app_assoc. reflexivity. Qed.

Lemma pending_operators sc :
  pending sc = true ->
  Forall (fun x => is_operator x = true) sc /\ (length sc <= 2)%nat.
Proof.
  destruct sc as [|x [|y [|z sc]]]; simpl; intros H; try discriminate.
  - split; [constructor|lia].
  - split; [repeat constructor; assumption|lia].
  - apply andb_prop in H as [Hx Hy]. split; [|lia].
    repeat constructor; unfold is_operator; rewrite ?Hx, ?Hy, ?orb_true_r; reflexivity.
Qed.

Lemma flatten_length scs :
  Forall (fun ops => pending ops = true) scs ->
  (length (flatten scs) <= 3 * length scs)%nat.
Proof.
  induction 1 as [|sc scs Hsc _ IH]; [simpl; lia|].
  rewrite flatten_cons, length_app. simpl.
  destruct (pending_operators sc Hsc) as [_ Hlen]. lia.
Qed.

(** A push on a stack known through [stack_is]: inside the block it
    succeeds, at a full block it is the undefined store. *)
Lemma push_cases stk c m :
  stack_is stk m ->
  if decide (length (c :: stk) <= Z.to_nat MAX_STACK_DEPTH)%nat
  then exists m', push c m = Ok tt m' /\ stack_is (c :: stk) m' /\ stdout m' = stdout m
  else exists m', push c m = Undefined m' /\ stdout m' = stdout m.
Proof.
  intros H. pose proof (stack_is_length _ _ H) as Hle.
  case_decide as Hd; simpl in Hd.
  - apply push_inside; [assumption|lia].
  - destruct (push_outside stk c m H ltac:(lia)) as (m' & E & _ & O).
    exists m'. auto.
Qed.

(** What one character of the alphabet does to a stack made of scopes. *)
Lemma step_scopes c m sc outer :
  stack_is (flatten (sc :: outer)) m ->
  Forall (fun ops => pending ops = true) (sc :: outer) ->
  in_alphabet c = true ->
  Forall (fun ops => pending ops = true) (next_scopes c (sc :: outer)) /\
  if decide (length (flatten (next_scopes c (sc :: outer))) <= Z.to_nat MAX_STACK_DEPTH)%nat
  then exists m', step c m = Ok tt m' /\
                  stack_is (flatten (next_scopes c (sc :: outer))) m' /\
                  stdout m' = stdout m ++ emitted c (sc :: outer)
  else exists m', step c m = Undefined m' /\
                  stdout m' = stdout m ++ emitted c (sc :: outer).
Proof.
  intros H Hall Hc.
  destruct (in_alphabet_classify c Hc) as [Hchar Hk].
  inversion Hall as [|? ? Hsc Houter]; subst.
  destruct (pending_operators sc Hsc) as [Hops Hlen].
  unfold next_scopes, emitted.
  destruct Hk as [[Hk _]|[[Hk Hadd]|[[Hk Hmul]|[[Hk ->]|[Hk ->]]]]]; rewrite Hk.
  - (* operand *)
    split; [assumption|].
    pose proof (stack_is_length _ _ H). case_decide; [|lia].
    rewrite step_operand by assumption. eexists. split; [reflexivity|].
    split; [|reflexivity]. destruct m. apply (stack_is_stdout _ _ _ _ _ H).
  - (* + or - *)
    split.
    { constructor; [|assumption]. simpl. unfold is_operator. rewrite Hadd. reflexivity. }
    rewrite flatten_cons in H.
    destruct (flush_scope sc (0 :: flatten outer) m H Hops ltac:(eauto) Hlen)
      as (m1 & E1 & H1 & O1 & _).
    rewrite step_add_sub by assumption.
    rewrite (bind_ok _ _ _ _ _ E1). cbv beta.
    pose proof (push_cases _ c _ H1) as Hpush.
    rewrite flatten_cons. simpl in *. rewrite <- O1.
    case_decide; exact Hpush.
  - (* * or / *)
    rewrite step_mul_div by assumption.
    rewrite flatten_cons in H.
    destruct sc as [|x ops].
    + split.
      { constructor; [|assumption]. simpl. unfold is_operator. rewrite Hmul.
        apply orb_true_r. }
      simpl in H.
      assert (E : (do y <- pop_mul_div; print_symbol y) m = Ok tt m).
      { rewrite (bind_ok _ _ _ _ _ (pop_mul_div_other _ _ _ H ltac:(unfold is_char; lia)
                                      ltac:(reflexivity))).
        apply print_symbol_other; unfold is_char; lia. }
      rewrite (bind_ok _ _ _ _ _ E). cbv beta.
      pose proof (push_cases _ c _ H) as Hpush.
      rewrite flatten_cons. simpl in *. rewrite app_nil_r.
      case_decide; exact Hpush.
    + inversion Hops as [|? ? Hx Hops']; subst.
      assert (Hxc : is_char x /\ 1 <= x <= 127).
      { destruct (is_operator_cases x Hx) as [|[|[|]]]; unfold is_char; lia. }
      destruct Hxc as [Hxc Hxp].
      destruct (is_mul x) eqn:Hxm.
      * split.
        { constructor; [|assumption].
          destruct ops as [|y [|z ops]]; simpl in *.
          - unfold is_operator. rewrite Hmul. apply orb_true_r.
          - rewrite Hxm in Hsc. rewrite Hmul. exact Hsc.
          - rewrite andb_false_r in Hsc || discriminate Hsc. }
        destruct m as [s t o]. simpl in H.
        assert (E : (do y <- pop_mul_div; print_symbol y) (Machine s t o)
                    = Ok tt (Machine s (t - 1) (o ++ [x]))).
        { rewrite (bind_ok _ _ _ _ _ (pop_mul_div_entry _ _ _ _ _ H Hxm)).
          apply print_symbol_printable. assumption. }
        rewrite (bind_ok _ _ _ _ _ E). cbv beta.
        pose proof (stack_is_tail _ _ _ _ _ H) as H1.
        apply (stack_is_stdout _ _ _ _ (o ++ [x])) in H1.
        pose proof (push_cases _ c _ H1) as Hpush.
        rewrite flatten_cons. simpl in *.
        case_decide; exact Hpush.
      * split.
        { constructor; [|assumption].
          destruct ops as [|y ops]; simpl in *.
          - rewrite Hmul. unfold is_operator in Hx. rewrite Hxm, orb_false_r in Hx.
            exact Hx.
          - rewrite Hxm in Hsc. destruct ops; discriminate Hsc. }
        simpl in H.
        assert (E : (do y <- pop_mul_div; print_symbol y) m = Ok tt m).
        { rewrite (bind_ok _ _ _ _ _ (pop_mul_div_other _ _ _ H Hxc Hxm)).
          apply print_symbol_other; unfold is_char; lia. }
        rewrite (bind_ok _ _ _ _ _ E). cbv beta.
        pose proof (push_cases _ c _ H) as Hpush.
        rewrite flatten_cons. simpl in *. rewrite app_nil_r.
        case_decide; exact Hpush.
  - (* open bracket *)
    split; [constructor; [reflexivity|assumption]|].
    rewrite step_open_bracket.
    pose proof (push_cases _ 0 _ H) as Hpush.
    rewrite (flatten_cons []). simpl in *. rewrite app_nil_r.
    case_decide; exact Hpush.
  - (* close bracket *)
    split; [assumption|]. simpl.
    rewrite flatten_cons in H.
    destruct (flush_scope sc (0 :: flatten outer) m H Hops ltac:(eauto) Hlen)
      as (m1 & E1 & H1 & O1 & _).
    rewrite step_close_bracket.
    rewrite (bind_ok _ _ _ _ _ E1). cbv beta.
    destruct m1 as [s1 t1 o1].
    rewrite (pop0_sentinel _ _ _ _ H1).
    pose proof (stack_is_tail _ _ _ _ _ H1) as H2.
    pose proof (stack_is_length _ _ H2). case_decide; [|lia].
    eexists. split; [reflexivity|]. split; [exact H2|exact O1].
Qed.

Lemma next_scopes_pending c sc outer :
  Forall (fun ops => pending ops = true) (sc :: outer) ->
  in_alphabet c = true ->
  Forall (fun ops => pending ops = true) (next_scopes c (sc :: outer)).
Proof.
  intros Hall Hc.
  destruct (in_alphabet_classify c Hc) as [_ Hk].
  inversion Hall as [|? ? Hsc Houter]; subst.
  unfold next_scopes.
  destruct Hk as [[Hk _]|[[Hk Hadd]|[[Hk Hmul]|[[Hk _]|[Hk _]]]]]; rewrite Hk.
  - assumption.
  - constructor; [|assumption]. simpl. unfold is_operator. rewrite Hadd. reflexivity.
  - assert (Hcop : is_operator c = true)
      by (unfold is_operator; rewrite Hmul; apply orb_true_r).
    destruct sc as [|x [|y [|z ops]]]; simpl in Hsc; try discriminate;
      constructor; try assumption; simpl.
    + destruct (is_mul x) eqn:Hx; simpl; [assumption|].
      rewrite Hmul. unfold is_operator in Hsc. rewrite Hx, orb_false_r in Hsc.
      exact Hsc.
    + apply andb_prop in Hsc as [Hx Hy]. rewrite Hx. simpl.
      rewrite Hmul, Hy. reflexivity.
  - constructor; [reflexivity|assumption].
  - assumption.
Qed.

Lemma classify_brackets c :
  (classify c = OpenBracket -> c = 40) /\ (classify c = CloseBracket -> c = 41).
Proof.
  classify_cases c; split; intros; try discriminate; lia.
Qed.

Lemma next_scopes_length c sc outer :
  length (next_scopes c (sc :: outer)) =
    if c =? 40 then S (S (length outer))
    else if c =? 41 then length outer
    else S (length outer).
Proof.
  destruct (Z.eqb_spec c 40) as [->|H40]; [reflexivity|].
  destruct (Z.eqb_spec c 41) as [->|H41]; [reflexivity|].
  destruct (classify_brackets c) as [Ho Hc].
  unfold next_scopes. destruct (classify c); try reflexivity; try tauto.
  destruct sc; reflexivity.
Qed.

Lemma max_nesting_ge p : forall d, (d <= max_nesting d p)%nat.
Proof.
  induction p as [|c p IH]; intros d; simpl; [lia|].
  destruct (c =? 40); [lia|]. destruct (c =? 41); [lia|]. apply IH.
Qed.

(** The depth after one character, and its place under the largest depth. *)
Lemma nesting_cons c rest d d' :
  nesting d (c :: rest) = Some d' ->
  exists d1, nesting d1 rest = Some d' /\
             (forall sc outer, length outer = d ->
                               length (next_scopes c (sc :: outer)) = S d1) /\
             (max_nesting d1 rest <= max_nesting d (c :: rest))%nat.
Proof.
  simpl. intros H.
  destruct (Z.eqb_spec c 40) as [->|H40].
  - exists (S d). split; [assumption|]. split; [|lia].
    intros sc outer <-. reflexivity.
  - destruct (Z.eqb_spec c 41) as [->|H41].
    + destruct d as [|d0]; [discriminate|].
      exists d0. split; [assumption|]. split; [|simpl; lia].
      intros sc outer Hl. rewrite next_scopes_length. exact Hl.
    + exists d. split; [assumption|]. split; [|lia].
      intros sc outer <-. rewrite next_scopes_length.
      destruct (Z.eqb_spec c 40); [lia|]. destruct (Z.eqb_spec c 41); [lia|].
      reflexivity.
Qed.

Lemma run_scopes_pending p :
  forall scs d d',
    length scs = S d -> nesting d p = Some d' ->
    Forall (fun ops => pending ops = true) scs ->
    Forall (fun c => in_alphabet c = true) p ->
    Forall (fun ops => pending ops = true) (run_scopes p scs) /\
    length (run_scopes p scs) = S d'.
Proof.
  induction p as [|c rest IH]; intros scs d d' Hlen Hnest Hall Hp.
  - simpl in *. injection Hnest as <-. auto.
  - destruct scs as [|sc outer]; [discriminate|].
    simpl in Hlen. injection Hlen as Hlen.
    inversion Hp as [|? ? Hc Hrest]; subst.
    destruct (nesting_cons _ _ _ _ Hnest) as (d1 & Hn1 & Hl1 & _).
    simpl. apply (IH _ d1 d'); auto using next_scopes_pending.
Qed.

(** The program follows the scopes along a sequence of characters as long
    as no store leaves the block, and no store does when three entries for
    each open scope fit in. *)
Lemma walk_scopes p :
  forall m scs d d',
    length scs = S d -> nesting d p = Some d' ->
    stack_is (flatten scs) m ->
    Forall (fun ops => pending ops = true) scs ->
    Forall (fun c => in_alphabet c = true) p ->
    (forall m', walk p m = Ok tt m' ->
                stack_is (flatten (run_scopes p scs)) m' /\
                stdout m' = stdout m ++ run_emitted p scs) /\
    ((3 * (max_nesting d p + 1) <= Z.to_nat MAX_STACK_DEPTH)%nat ->
     exists m', walk p m = Ok tt m').
Proof.
  induction p as [|c rest IH]; intros m scs d d' Hlen Hnest H Hall Hp.
  - simpl. split.
    + intros m' E. injection E as <-. rewrite app_nil_r. auto.
    + intros _. exists m. reflexivity.
  - destruct scs as [|sc outer]; [discriminate|].
    simpl in Hlen. injection Hlen as Hlen.
    inversion Hp as [|? ? Hc Hrest]; subst.
    destruct (nesting_cons _ _ _ _ Hnest) as (d1 & Hn1 & Hl1 & Hmax).
    specialize (Hl1 sc outer eq_refl).
    pose proof (next_scopes_pending c sc outer Hall Hc) as Hall1.
    destruct (step_scopes c m sc outer H Hall Hc) as [_ Hstep].
    pose proof (flatten_length _ Hall1) as Hflat. rewrite Hl1 in Hflat.
    case_decide as Hd.
    + destruct Hstep as (m1 & E1 & H1 & O1).
      destruct (IH m1 _ d1 d' Hl1 Hn1 H1 Hall1 Hrest) as [IHp IHt].
      change (walk (c :: rest) m) with ((step c ;; walk rest) m).
      rewrite (bind_ok _ _ _ _ _ E1). cbv beta. split.
      * intros m' E. destruct (IHp m' E) as [Hs Ho]. split; [exact Hs|].
        simpl. rewrite Ho, O1, <- app_assoc. reflexivity.
      * intros Hcap. apply IHt. lia.
    + destruct Hstep as (m1 & E1 & _).
      change (walk (c :: rest) m) with ((step c ;; walk rest) m).
      rewrite (bind_undefined _ _ _ _ E1). split.
      * intros m' E. discriminate E.
      * intros Hcap. pose proof (max_nesting_ge rest d1). lia.
Qed.

(** ** What is printed *)

Lemma operator_not_operand x : is_operator x = true -> is_operand x = false.
Proof.
  intros H. destruct (is_operator_cases x H) as [ -> | [ -> | [ -> | -> ] ] ]; reflexivity.
Qed.

Lemma operands_operators l :
  Forall (fun x => is_operator x = true) l -> operands l = [].
Proof.
  induction 1 as [|x l Hx _ IH]; [reflexivity|].
  unfold operands in *. simpl. rewrite (operator_not_operand x Hx). exact IH.
Qed.

Lemma operands_app l1 l2 : operands (l1 ++ l2) = operands l1 ++ operands l2.
Proof. apply List.filter_app. Qed.

Lemma operators_expression_chars l :
  Forall (fun x => is_operator x = true) l ->
  Forall (fun x => expression_char x = true) l.
Proof.
  intros H. eapply Forall_impl; [exact H|].
  intros x Hx. unfold expression_char. rewrite Hx. apply orb_true_r.
Qed.

(** What one character makes the program print: the character itself if it
    is an operand, operators taken from the top scope otherwise. *)
Lemma emitted_cases c scs :
  Forall (fun ops => pending ops = true) scs ->
  in_alphabet c = true ->
  (is_operand c = true /\ emitted c scs = [c]) \/
  (is_operand c = false /\ Forall (fun x => is_operator x = true) (emitted c scs)).
Proof.
  intros Hall Hc. destruct (in_alphabet_classify c Hc) as [_ Hk].
  assert (Hhd : Forall (fun x => is_operator x = true) (hd [] scs)).
  { destruct Hall as [|sc outer Hsc _]; [constructor|].
    apply (pending_operators sc Hsc). }
  unfold emitted.
  destruct Hk as [[Hk Hop]|[[Hk Hadd]|[[Hk Hmul]|[[Hk ->]|[Hk ->]]]]]; rewrite Hk.
  - left. auto.
  - right. split; [|exact Hhd]. apply operator_not_operand.
    unfold is_operator. rewrite Hadd. reflexivity.
  - right. split.
    + apply operator_not_operand. unfold is_operator. rewrite Hmul. apply orb_true_r.
    + destruct scs as [|[|x ops] outer]; try constructor.
      destruct (is_mul x) eqn:Hx; repeat constructor.
      unfold is_operator. rewrite Hx. apply orb_true_r.
  - right. split; [reflexivity|constructor].
  - right. split; [reflexivity|exact Hhd].
Qed.

Lemma next_scopes_pending_all c scs :
  Forall (fun ops => pending ops = true) scs ->
  in_alphabet c = true ->
  Forall (fun ops => pending ops = true) (next_scopes c scs).
Proof.
  intros Hall Hc. destruct scs as [|sc outer]; [|apply next_scopes_pending; assumption].
  unfold next_scopes. destruct (classify c); repeat constructor.
Qed.

Lemma run_emitted_operands p :
  forall scs,
    Forall (fun ops => pending ops = true) scs ->
    Forall (fun c => in_alphabet c = true) p ->
    operands (run_emitted p scs) = operands p /\
    Forall (fun x => expression_char x = true) (run_emitted p scs).
Proof.
  induction p as [|c rest IH]; intros scs Hall Hp.
  - split; [reflexivity|constructor].
  - inversion Hp as [|? ? Hc Hrest]; subst.
    destruct (IH _ (next_scopes_pending_all c scs Hall Hc) Hrest) as [IHo IHc].
    change (run_emitted (c :: rest) scs)
      with (emitted c scs ++ run_emitted rest (next_scopes c scs)).
    split.
    + change (c :: rest) with ([c] ++ rest). rewrite !operands_app, IHo.
      destruct (emitted_cases c scs Hall Hc) as [[Hop ->]|[Hop Hem]].
      * reflexivity.
      * rewrite (operands_operators _ Hem). unfold operands. simpl.
        rewrite Hop. reflexivity.
    + apply Forall_app. split; [|exact IHc].
      destruct (emitted_cases c scs Hall Hc) as [[Hop ->]|[Hop Hem]].
      * repeat constructor. unfold expression_char. rewrite Hop. reflexivity.
      * apply operators_expression_chars, Hem.
Qed.

(** ** Whole runs from the state set up by [main] *)

Lemma main_machine_stack : stack_is (flatten [[]]) main_machine.
Proof. repeat split. Qed.

(** A run over characters of the alphabet in which no close bracket comes
    unmatched, once all characters are handled inside the block: the run
    comes to its end, has printed the operands in their order and operators,
    and leaves the sentinels of the brackets still open. *)
Lemma convert_after_walk str d' m1 :
  Forall (fun c => in_alphabet c = true) str ->
  nesting 0 str = Some d' ->
  walk str main_machine = Ok tt m1 ->
  exists m out,
    convert str main_machine = Ok tt m /\
    stdout m = out ++ [newline] /\
    operands out = operands str /\
    Forall (fun x => expression_char x = true) out /\
    stack_is (flatten ([] :: tl (run_scopes str [[]]))) m /\
    Forall (fun ops => pending ops = true) (tl (run_scopes str [[]])) /\
    length (tl (run_scopes str [[]])) = d'.
Proof.
  intros Hstr Hnest E1.
  assert (Hall0 : Forall (fun ops => pending ops = true) [[]])
    by (repeat constructor).
  destruct (walk_scopes str main_machine [[]] 0%nat d' eq_refl Hnest
              main_machine_stack Hall0 Hstr) as [Hpart _].
  destruct (Hpart m1 E1) as [H1 O1].
  destruct (run_scopes_pending str [[]] 0%nat d' eq_refl Hnest Hall0 Hstr)
    as [Hall1 Hlen1].
  destruct (run_emitted_operands str [[]] Hall0 Hstr) as [Hops Hchars].
  destruct (run_scopes str [[]]) as [|sc outer] eqn:Hrun; [discriminate|].
  inversion Hall1 as [|? ? Hsc Houter]; subst.
  destruct (pending_operators sc Hsc) as [Hscops Hsclen].
  rewrite flatten_cons in H1.
  destruct (flush_scope sc (0 :: flatten outer) m1 H1 Hscops ltac:(eauto) Hsclen)
    as (m2 & E2 & H2 & O2 & _).
  exists (Machine (stack m2) (stack_top m2) (stdout m2 ++ [newline])),
    (run_emitted str [[]] ++ sc).
  split; [|split; [|split; [|split; [|split; [|split]]]]].
  - rewrite <- (app_nil_r str) at 1. rewrite convert_app by assumption.
    rewrite (bind_ok _ _ _ _ _ E1). cbv beta. rewrite convert_end.
    rewrite (bind_ok _ _ _ _ _ E2). reflexivity.
  - simpl. rewrite O2, O1. reflexivity.
  - rewrite operands_app, Hops, (operands_operators _ Hscops). apply app_nil_r.
  - apply Forall_app. split; [exact Hchars|].
    apply operators_expression_chars, Hscops.
  - destruct m2 as [s2 t2 o2]. apply (stack_is_stdout _ _ _ o2). exact H2.
  - exact Houter.
  - simpl in *. lia.
Qed.

(** A conversion that comes to its end has handled all its characters. *)
Lemma convert_walked str m :
  Forall (fun c => in_alphabet c = true) str ->
  convert str main_machine = Ok tt m ->
  exists m1, walk str main_machine = Ok tt m1.
Proof.
  intros Hstr E. rewrite <- (app_nil_r str) in E.
  rewrite convert_app in E by assumption. unfold bind in E.
  destruct (walk str main_machine) as [[] m1|m1]; [eauto|discriminate].
Qed.

Lemma walk_within_depth str d' :
  Forall (fun c => in_alphabet c = true) str ->
  nesting 0 str = Some d' ->
  (max_nesting 0 str <= 20)%nat ->
  exists m1, walk str main_machine = Ok tt m1.
Proof.
  intros Hstr Hnest Hmax.
  assert (Hall0 : Forall (fun ops => pending ops = true) [[]])
    by (repeat constructor).
  apply (walk_scopes str main_machine [[]] 0%nat d' eq_refl Hnest
           main_machine_stack Hall0 Hstr).
  unfold MAX_STACK_DEPTH. simpl. lia.
Qed.

Lemma convert_scopes str d' :
  Forall (fun c => in_alphabet c = true) str ->
  nesting 0 str = Some d' ->
  (max_nesting 0 str <= 20)%nat ->
  exists m out,
    convert str main_machine = Ok tt m /\
    stdout m = out ++ [newline] /\
    operands out = operands str /\
    Forall (fun x => expression_char x = true) out /\
    stack_is (flatten ([] :: tl (run_scopes str [[]]))) m /\
    Forall (fun ops => pending ops = true) (tl (run_scopes str [[]])) /\
    length (tl (run_scopes str [[]])) = d'.
Proof.
  intros Hstr Hnest Hmax.
  destruct (walk_within_depth str d' Hstr Hnest Hmax) as [m1 E1].
  apply (convert_after_walk str d' m1 Hstr Hnest E1).
Qed.

Lemma nesting_app p q : forall d,
  nesting d (p ++ q) =
    match nesting d p with
    | Some d1 => nesting d1 q
    | None => None
    end.
Proof.
  induction p as [|c p IH]; intros d; simpl; [reflexivity|].
  destruct (c =? 40); [apply IH|].
  destruct (c =? 41); [|apply IH].
  destruct d; [reflexivity|apply IH].
Qed.

Lemma max_nesting_app p q : forall d,
  (max_nesting d p <= max_nesting d (p ++ q))%nat.
Proof.
  induction p as [|c p IH]; intros d; simpl; [apply max_nesting_ge|].
  destruct (c =? 40); [specialize (IH (S d)); lia|].
  destruct (c =? 41); [specialize (IH (Nat.pred d)); lia|apply IH].
Qed.

Lemma flatten_length_ge scs : (length scs <= length (flatten scs))%nat.
Proof.
  induction scs as [|sc scs IH]; [simpl; lia|].
  rewrite flatten_cons, length_app. simpl. lia.
Qed.

Lemma classify_additive c : classify c = AdditiveOp -> c = 43 \/ c = 45.
Proof. classify_cases c; intros; try discriminate; lia. Qed.

Lemma classify_multiplicative c : classify c = MultiplicativeOp -> c = 42 \/ c = 47.
Proof. classify_cases c; intros; try discriminate; lia. Qed.

(** The states between the characters of a run from [main]'s state. *)
Lemma walk_prefix p d1 :
  Forall (fun c => in_alphabet c = true) p ->
  nesting 0 p = Some d1 ->
  (forall m, walk p main_machine = Ok tt m ->
             stack_is (flatten (run_scopes p [[]])) m /\
             stdout m = run_emitted p [[]]) /\
  ((max_nesting 0 p <= 20)%nat -> exists m, walk p main_machine = Ok tt m) /\
  Forall (fun ops => pending ops = true) (run_scopes p [[]]) /\
  length (run_scopes p [[]]) = S d1.
Proof.
  intros Hp Hnest.
  assert (Hall0 : Forall (fun ops => pending ops = true) [[]])
    by (repeat constructor).
  destruct (walk_scopes p main_machine [[]] 0%nat d1 eq_refl Hnest
              main_machine_stack Hall0 Hp) as [Hpart Htot].
  destruct (run_scopes_pending p [[]] 0%nat d1 eq_refl Hnest Hall0 Hp)
    as [Hall1 Hlen1].
  split; [exact Hpart|]. split; [|auto].
  intros Hmax. apply Htot. unfold MAX_STACK_DEPTH. simpl. lia.
Qed.

(** * The claims *)

(** C1.  From the state set up by [main], the conversion of each of ["a"],
    ["a+b"], ["a+b*c"], ["a+b+c"], ["a/b/c"], ["(a+b)*c"] and
    ["a+(b+c*d)*e+f/g+h"] comes to its end and has printed exactly ["a"],
    ["ab+"], ["abc*+"], ["ab+c+"], ["ab/c/"], ["ab+c*"] and
    ["abcd*+e*+fg/+h+"], each followed by the newline of [handle_end]. *)
Theorem concrete_scenarios :
  converts_to "a" "a" /\
  converts_to "a+b" "ab+" /\
  converts_to "a+b*c" "abc*+" /\
  converts_to "a+b+c" "ab+c+" /\
  converts_to "a/b/c" "ab/c/" /\
  converts_to "(a+b)*c" "ab+c*" /\
  converts_to "a+(b+c*d)*e+f/g+h" "abcd*+e*+fg/+h+".
Proof.
  unfold converts_to.
  repeat split; eexists; (split; [vm_compute; reflexivity|reflexivity]).
Qed.

(** C2 (as amended).  For every sequence of operands, operators and
    brackets in which every bracket is matched: whenever the conversion comes
    to its end, the operand characters of its output are the operand
    characters of the input, in the same order; and it does come to its end,
    with that output, when at most 20 brackets are open at a time. *)
Theorem operand_order_preserved (str : list Z) :
  balanced str ->
  (forall m, convert str main_machine = Ok tt m ->
             operands (stdout m) = operands str) /\
  ((max_nesting 0 str <= 20)%nat ->
   exists m, convert str main_machine = Ok tt m /\
             operands (stdout m) = operands str).
Proof.
  intros [Hstr Hnest].
  assert (Hpart : forall m, convert str main_machine = Ok tt m ->
                            operands (stdout m) = operands str).
  { intros m E. destruct (convert_walked str m Hstr E) as [m1 E1].
    destruct (convert_after_walk str 0%nat m1 Hstr Hnest E1)
      as (m2 & out & E2 & O & Hops & _).
    rewrite E in E2. injection E2 as <-.
    rewrite O, operands_app, Hops. apply app_nil_r. }
  split; [exact Hpart|].
  intros Hmax.
  destruct (convert_scopes str 0%nat Hstr Hnest Hmax) as (m & out & E & _).
  exists m. auto.
Qed.

Lemma operand_order_preserved_witness :
  exists m, convert (cstring "a+(b+c*d)*e") main_machine = Ok tt m /\
            operands (stdout m) = operands (cstring "a+(b+c*d)*e").
Proof.
  assert (Hb : balanced (cstring "a+(b+c*d)*e"))
    by (split; [repeat constructor|reflexivity]).
  apply (proj2 (operand_order_preserved _ Hb)).
  vm_compute. lia.
Defined.

(** C2, the claim as stated fails: with 64 brackets around [a] every bracket
    is matched, but the 64th push stores past the end of the block before any
    operand is printed. *)
Lemma operand_order_counterexample :
  balanced (nested 64) /\
  exists m, convert (nested 64) main_machine = Undefined m /\
            stack_top m = MAX_STACK_DEPTH /\
            operands (stdout m) <> operands (nested 64).
Proof.
  split.
  - split; [repeat constructor|reflexivity].
  - eexists. split; [vm_compute; reflexivity|]. split; [reflexivity|].
    vm_compute. discriminate.
Qed.

(** C3.  On [+] or [-], with the operators [ops] (at most two) on top of the
    stack and either a sentinel below them or two of them: the two guarded
    pops remove and print [ops] and nothing else, a sentinel below stays in
    place and a further guarded pop on it changes nothing; then the new
    operator is pushed and the conversion goes on with the next character.
    The push puts the operator above what was left, unless that already fills
    the block. *)
Theorem additive_operator_flush (c : Z) (rest ops below : list Z) (m : machine) :
  classify c = AdditiveOp ->
  stack_is (ops ++ below) m ->
  Forall (fun x => is_operator x = true) ops ->
  (length ops <= 2)%nat ->
  (length ops = 2%nat \/ exists b, below = 0 :: b) ->
  exists m1,
    flush m = Ok tt m1 /\ stack_is below m1 /\ stdout m1 = stdout m ++ ops /\
    match below with
    | 0 :: _ => (do x <- pop; print_symbol x) m1 = Ok tt m1
    | _ => True
    end /\
    convert (c :: rest) m = (push c ;; convert rest) m1 /\
    if decide (length (c :: below) <= Z.to_nat MAX_STACK_DEPTH)%nat
    then exists m', push c m1 = Ok tt m' /\ stack_is (c :: below) m' /\
                    stdout m' = stdout m1
    else exists m', push c m1 = Undefined m' /\ stdout m' = stdout m1.
Proof.
  intros Hk H Hops Hlen Hbelow.
  assert (Hc : is_char c) by (destruct (classify_additive c Hk); unfold is_char; lia).
  destruct (flush_scope ops below m H Hops Hbelow Hlen) as (m1 & E1 & H1 & O1 & _).
  exists m1. repeat (split; [assumption|]). split; [|split].
  - destruct below as [|[| |] b]; try exact I. apply (pop_print_sentinel _ _ H1).
  - simpl. rewrite dispatch_classify, Hk by assumption. simpl.
    unfold handle_add_sub. unfold flush in E1.
    rewrite <- bind_assoc.
    rewrite (bind_ok _ _ _ _ _ E1). reflexivity.
  - apply push_cases, H1.
Qed.

Lemma additive_operator_flush_witness :
  exists m1,
    flush (Machine (Some 0 :: Some 43 :: Some 42 :: replicate 61 None) 2 [97; 98; 99])
    = Ok tt m1 /\
    stack_is [0] m1 /\ stdout m1 = [97; 98; 99] ++ [42; 43] /\
    (do x <- pop; print_symbol x) m1 = Ok tt m1 /\
    convert (45 :: [100])
      (Machine (Some 0 :: Some 43 :: Some 42 :: replicate 61 None) 2 [97; 98; 99])
    = (push 45 ;; convert [100]) m1 /\
    exists m', push 45 m1 = Ok tt m' /\ stack_is [45; 0] m' /\ stdout m' = stdout m1.
Proof.
  apply (additive_operator_flush 45 [100] [42; 43] [0]
           (Machine (Some 0 :: Some 43 :: Some 42 :: replicate 61 None) 2 [97; 98; 99])).
  - reflexivity.
  - split; [reflexivity|]. split; reflexivity.
  - repeat constructor.
  - simpl. lia.
  - left. reflexivity.
Defined.

(** C4.  On [*] or [/], with [x] on top of the stack: if [x] is [*] or [/]
    the guarded [pop_mul_div] removes and prints it; otherwise (an additive
    operator, a sentinel, the bottom) it leaves the machine exactly as it was.
    In both cases the new operator is then pushed and the conversion goes on
    with the next character.  The push puts the operator above what was left,
    unless that already fills the block. *)
Theorem multiplicative_operator_flush (c x : Z) (rest below : list Z) (m : machine) :
  classify c = MultiplicativeOp ->
  stack_is (x :: below) m ->
  is_char x ->
  exists m1,
    (do y <- pop_mul_div; print_symbol y) m = Ok tt m1 /\
    stack_is (if is_mul x then below else x :: below) m1 /\
    stdout m1 = stdout m ++ (if is_mul x then [x] else []) /\
    (if is_mul x then True else m1 = m) /\
    convert (c :: rest) m = (push c ;; convert rest) m1 /\
    if decide (length (c :: (if is_mul x then below else x :: below))
               <= Z.to_nat MAX_STACK_DEPTH)%nat
    then exists m', push c m1 = Ok tt m' /\
                    stack_is (c :: (if is_mul x then below else x :: below)) m' /\
                    stdout m' = stdout m1
    else exists m', push c m1 = Undefined m' /\ stdout m' = stdout m1.
Proof.
  intros Hk H Hx.
  assert (Hc : is_char c)
    by (destruct (classify_multiplicative c Hk); unfold is_char; lia).
  assert (Hflush : exists m1,
             (do y <- pop_mul_div; print_symbol y) m = Ok tt m1 /\
             stack_is (if is_mul x then below else x :: below) m1 /\
             stdout m1 = stdout m ++ (if is_mul x then [x] else []) /\
             (if is_mul x then True else m1 = m)).
  { destruct (is_mul x) eqn:Hxm.
    - destruct m as [s t o].
      exists (Machine s (t - 1) (o ++ [x])). split; [|split; [|split]].
      + rewrite (bind_ok _ _ _ _ _ (pop_mul_div_entry _ _ _ _ _ H Hxm)).
        apply print_symbol_printable.
        unfold is_mul in Hxm.
        destruct (Z.eqb_spec x 42), (Z.eqb_spec x 47); try discriminate; lia.
      + apply (stack_is_stdout _ _ _ o), (stack_is_tail _ _ _ _ _ H).
      + reflexivity.
      + exact I.
    - exists m. split; [|split; [|split]].
      + rewrite (bind_ok _ _ _ _ _ (pop_mul_div_other _ _ _ H Hx Hxm)).
        apply print_symbol_other; unfold is_char; lia.
      + exact H.
      + symmetry. apply app_nil_r.
      + reflexivity. }
  destruct Hflush as (m1 & E1 & H1 & O1 & Hsame).
  exists m1. repeat (split; [assumption|]). split.
  - simpl. rewrite dispatch_classify, Hk by assumption. simpl.
    unfold handle_mul_div.
    rewrite (bind_ok _ _ _ _ _ E1). reflexivity.
  - apply push_cases, H1.
Qed.

Lemma multiplicative_operator_flush_witness :
  exists m1,
    (do y <- pop_mul_div; print_symbol y)
      (Machine (Some 0 :: Some 43 :: replicate 62 None) 1 [97; 98]) = Ok tt m1 /\
    stack_is [43; 0] m1 /\
    stdout m1 = [97; 98] ++ [] /\
    m1 = Machine (Some 0 :: Some 43 :: replicate 62 None) 1 [97; 98] /\
    convert (42 :: [99]) (Machine (Some 0 :: Some 43 :: replicate 62 None) 1 [97; 98])
    = (push 42 ;; convert [99]) m1 /\
    exists m', push 42 m1 = Ok tt m' /\ stack_is [42; 43; 0] m' /\
               stdout m' = stdout m1.
Proof.
  apply (multiplicative_operator_flush 42 43 [99] [0]
           (Machine (Some 0 :: Some 43 :: replicate 62 None) 1 [97; 98])).
  - reflexivity.
  - split; [reflexivity|]. split; reflexivity.
  - unfold is_char. lia.
Defined.

(** C5.  Along the conversion of a sequence of operands, operators and
    brackets in which every bracket is matched, the machine between any two
    characters (after the prefix [p], before the rest [q]) and the machine at
    the end of the conversion have a stack made of bracket scopes, each a
    sentinel carrying no operator, one operator, or a multiplicative operator
    above an additive one.  Such a state is reached after every prefix when
    at most 20 brackets are open at a time. *)
Theorem scope_invariant_every_step (p q : list Z) :
  balanced (p ++ q) ->
  convert (p ++ q) main_machine = (walk p ;; convert q) main_machine /\
  (forall m, walk p main_machine = Ok tt m -> scope_invariant m) /\
  (forall m, convert (p ++ q) main_machine = Ok tt m -> scope_invariant m) /\
  ((max_nesting 0 (p ++ q) <= 20)%nat ->
   exists m, walk p main_machine = Ok tt m /\ scope_invariant m).
Proof.
  intros [Hstr Hnest].
  pose proof Hstr as Hpq. pose proof Hnest as Hnpq.
  apply Forall_app in Hstr as [Hp Hq].
  rewrite nesting_app in Hnest.
  destruct (nesting 0 p) as [d1|] eqn:Hn1; [|discriminate].
  destruct (walk_prefix p d1 Hp Hn1) as (Hpart & Htot & Hall & Hlen).
  assert (Hinv : forall m, walk p main_machine = Ok tt m -> scope_invariant m).
  { intros m E. exists (run_scopes p [[]]). split; [|split].
    - intros Hnil. rewrite Hnil in Hlen. discriminate.
    - apply (Hpart m E).
    - exact Hall. }
  split; [apply convert_app, Hp|]. split; [exact Hinv|]. split.
  - intros m E. destruct (convert_walked _ m Hpq E) as [m1 E1].
    destruct (convert_after_walk _ 0%nat m1 Hpq Hnpq E1)
      as (m2 & out & E2 & _ & _ & _ & Hstack & Hpend & _).
    rewrite E in E2. injection E2 as <-.
    exists ([] :: tl (run_scopes (p ++ q) [[]])).
    split; [discriminate|]. split; [exact Hstack|].
    constructor; [reflexivity|exact Hpend].
  - intros Hmax. destruct Htot as [m E].
    + pose proof (max_nesting_app p q 0%nat). lia.
    + exists m. auto.
Qed.

Lemma scope_invariant_every_step_witness :
  exists m, walk (cstring "a+(b*c") main_machine = Ok tt m /\ scope_invariant m.
Proof.
  assert (Hb : balanced (cstring "a+(b*c" ++ cstring "-d)/e"))
    by (split; [repeat constructor|reflexivity]).
  apply (proj2 (proj2 (proj2 (scope_invariant_every_step _ _ Hb)))).
  vm_compute. lia.
Defined.

(** C6 (as amended).  The program reports no unmatched bracket.  Let [p] be
    a sequence of operands, operators and brackets with no unmatched close
    bracket and at most 20 brackets open at a time.  If brackets are still
    open at the end of [p], the conversion of [p] comes to its end as for any
    expression: it has printed the operands of [p] and operators, then the
    newline, and a sentinel is still on the stack.  If all brackets of [p] are
    matched, a close bracket after [p] makes [pop0] remove the 0 at the bottom
    of the stack: the stack pointer is one below the block, only operands and
    operators have been printed, and the conversion goes on with the rest. *)
Theorem unmatched_brackets_unreported (p rest : list Z) (n : nat) :
  Forall (fun c => in_alphabet c = true) p ->
  nesting 0 p = Some n ->
  (max_nesting 0 p <= 20)%nat ->
  match n with
  | S _ =>
      exists m out,
        convert p main_machine = Ok tt m /\
        stdout m = out ++ [newline] /\
        Forall (fun x => expression_char x = true) out /\
        operands out = operands p /\
        1 <= stack_top m
  | O =>
      exists m,
        walk (p ++ [41]) main_machine = Ok tt m /\
        stack_top m = -1 /\
        Forall (fun x => expression_char x = true) (stdout m) /\
        convert (p ++ 41 :: rest) main_machine = convert rest m
  end.
Proof.
  intros Hp Hnest Hmax. destruct n as [|n].
  - destruct (walk_prefix p 0%nat Hp Hnest) as (Hpart & Htot & Hall & Hlen).
    destruct (Htot Hmax) as [m1 E1].
    destruct (Hpart m1 E1) as [H1 O1].
    destruct (run_emitted_operands p [[]]) as [_ Hchars];
      [repeat constructor|exact Hp|].
    destruct (run_scopes p [[]]) as [|sc [|? ?]]; try discriminate.
    inversion Hall as [|? ? Hsc _]; subst.
    destruct (step_scopes 41 m1 sc [] H1 Hall eq_refl) as [_ Hstep].
    simpl in Hstep.
    destruct Hstep as (m2 & E2 & H2 & O2).
    change (next_scopes 41 [sc]) with (@nil (list Z)) in H2.
    change (emitted 41 [sc]) with sc in O2.
    exists m2.
    assert (Ew : walk (p ++ [41]) main_machine = Ok tt m2).
    { rewrite walk_app, (bind_ok _ _ _ _ _ E1). cbv beta.
      simpl. rewrite (bind_ok _ _ _ _ _ E2). reflexivity. }
    split; [exact Ew|]. split; [apply H2|]. split.
    + rewrite O2, O1. apply Forall_app. split; [exact Hchars|].
      apply operators_expression_chars, (pending_operators sc Hsc).
    + change (p ++ 41 :: rest) with (p ++ [41] ++ rest). rewrite app_assoc.
      rewrite convert_app, (bind_ok _ _ _ _ _ Ew); [reflexivity|].
      apply Forall_app. split; [exact Hp|repeat constructor].
  - destruct (convert_scopes p (S n) Hp Hnest Hmax)
      as (m & out & E & O & Hops & Hchars & Hstack & _ & Hlen).
    exists m, out. repeat (split; [assumption|]).
    destruct Hstack as (_ & -> & _). rewrite flatten_cons. simpl.
    pose proof (flatten_length_ge (tl (run_scopes p [[]]))). lia.
Qed.

Lemma unmatched_brackets_unreported_witness :
  exists m out,
    convert (cstring "a+(b") main_machine = Ok tt m /\
    stdout m = out ++ [newline] /\
    Forall (fun x => expression_char x = true) out /\
    operands out = operands (cstring "a+(b") /\
    1 <= stack_top m.
Proof.
  apply (unmatched_brackets_unreported (cstring "a+(b") [] 1).
  - repeat constructor.
  - reflexivity.
  - vm_compute. lia.
Defined.

(** C6, the claim as stated fails: the conversion of ["(a+b"] ends as a
    success with ["ab+"] printed, and in the conversion of ["a+b)"] the pops
    of [handle_end] read below the block after ["ab+"] has been printed; no
    error is printed in either run. *)
Lemma unmatched_brackets_counterexample :
  converts_to "(a+b" "ab+" /\
  exists m, convert (cstring "a+b)") main_machine = Undefined m /\
            stack_top m = -1 /\ stdout m = cstring "ab+".
Proof.
  split; eexists; (split; [vm_compute; reflexivity|]); [|split]; reflexivity.
Qed.

(** C7 (as amended).  The program has no check of the stack capacity and
    reports no overflow.  The conversion of a sequence of operands, operators
    and brackets with no unmatched close bracket and at most 20 brackets open
    at a time comes to its end with the stack pointer inside the block of
    [MAX_STACK_DEPTH] bytes; a push on a stack that fills the block stores
    past its end, which is undefined, and prints nothing. *)
Theorem stack_capacity_unchecked (str : list Z) (d' : nat) :
  Forall (fun c => in_alphabet c = true) str ->
  nesting 0 str = Some d' ->
  (max_nesting 0 str <= 20)%nat ->
  (exists m, convert str main_machine = Ok tt m /\
             0 <= stack_top m < MAX_STACK_DEPTH) /\
  (forall c stk m,
      stack_is stk m /\ length stk = Z.to_nat MAX_STACK_DEPTH ->
      exists m', push c m = Undefined m' /\ stack_top m' = MAX_STACK_DEPTH /\
                 stdout m' = stdout m).
Proof.
  intros Hstr Hnest Hmax. split.
  - destruct (convert_scopes str d' Hstr Hnest Hmax)
      as (m & out & E & _ & _ & _ & Hstack & _).
    exists m. split; [exact E|].
    pose proof (stack_is_length _ _ Hstack) as Hle.
    destruct Hstack as (_ & -> & _). rewrite flatten_cons in *. simpl in *.
    unfold MAX_STACK_DEPTH in *. lia.
  - intros c stk m [H Hfull]. apply (push_outside stk c m H Hfull).
Qed.

Lemma stack_capacity_unchecked_witness :
  exists m, convert (cstring "((a+b)*c)") main_machine = Ok tt m /\
            0 <= stack_top m < MAX_STACK_DEPTH.
Proof.
  refine (proj1 (stack_capacity_unchecked (cstring "((a+b)*c)") 0 _ _ _)).
  - repeat constructor.
  - reflexivity.
  - vm_compute. lia.
Defined.

(** C7, the claim as stated fails: with 64 brackets around [a] the 64th push
    stores at offset 64 of the 64-byte block; nothing has been printed, no
    overflow is reported. *)
Lemma stack_capacity_counterexample :
  exists m, convert (nested 64) main_machine = Undefined m /\
            stack_top m = MAX_STACK_DEPTH /\ stdout m = [].
Proof.
  eexists. split; [vm_compute; reflexivity|]. split; reflexivity.
Qed.

(** C8.  When the conversion comes to a character that is none of the
    recognized ones, after a prefix [p] of operands, operators and brackets
    handled up to the state [m'], it prints the error message and returns at
    once: the output is what was printed up to [m'] followed by the message,
    the stack is left as it was, and the rest of the input is not looked at.
    For ["a$b"] the output is ["a"] followed by the message. *)
Theorem invalid_character_aborts (p rest : list Z) (c : Z) (m m' : machine) :
  Forall (fun x => in_alphabet x = true) p ->
  is_char c -> classify c = Invalid ->
  walk p m = Ok tt m' ->
  convert (p ++ c :: rest) m
  = Ok tt (Machine (stack m') (stack_top m') (stdout m' ++ error_message)) /\
  output (convert (cstring "a$b") main_machine) = cstring "a" ++ error_message.
Proof.
  intros Hp Hc Hk E. split; [|reflexivity].
  rewrite convert_app, (bind_ok _ _ _ _ _ E) by assumption. cbv beta.
  simpl. rewrite dispatch_invalid by assumption. reflexivity.
Qed.

Lemma invalid_character_aborts_witness :
  convert (cstring "a+b" ++ 36 :: cstring "*c") main_machine
  = Ok tt (Machine (Some 0 :: Some 43 :: replicate 62 None) 1
             (cstring "ab" ++ error_message)).
Proof.
  refine (proj1 (invalid_character_aborts (cstring "a+b") (cstring "*c") 36
                   main_machine
                   (Machine (Some 0 :: Some 43 :: replicate 62 None) 1 (cstring "ab"))
                   _ _ _ _)).
  - repeat constructor.
  - unfold is_char. lia.
  - reflexivity.
  - vm_compute. reflexivity.
Defined.

(** C9.  For every character value the interval checks of [convert] are
    mutually exclusive, the index they add up to is the index of the handler
    of the one category of the character, and that handler is the one
    called. *)
Theorem classifier_exhaustive_exclusive (c : Z) :
  is_char c ->
  call_index c = handler_index (classify c) /\
  checks_passed c = (if decide (classify c = Invalid) then 0 else 1) /\
  (forall next, dispatch c next = handler_of (classify c) c next).
Proof.
  intros Hc. split; [|split].
  - apply call_index_classify, Hc.
  - apply checks_passed_classify, Hc.
  - intros next. apply dispatch_classify, Hc.
Qed.

Lemma classifier_exhaustive_exclusive_witness :
  call_index 47 = HANDLE_MUL_DIV /\ call_index 36 = HANDLE_ERROR.
Proof.
  assert (H47 : is_char 47) by (unfold is_char; lia).
  assert (H36 : is_char 36) by (unfold is_char; lia).
  split.
  - exact (proj1 (classifier_exhaustive_exclusive 47 H47)).
  - exact (proj1 (classifier_exhaustive_exclusive 36 H36)).
Defined.

(** C10.  Whenever neither [high - value] nor [value - low] overflows an
    [int], [check_interval value low high] is 1 if [low <= value <= high] and
    0 otherwise; the result is the inverted sign bit of the bitwise or of the
    two differences. *)
Theorem check_interval_correct (value low high : Z) :
  in_int (high - value) -> in_int (value - low) ->
  (low <= value <= high -> check_interval value low high = 1) /\
  (~ low <= value <= high -> check_interval value low high = 0) /\
  check_interval value low high =
    1 - Z.b2z (Z.testbit (Z.lor (high - value) (value - low)) (int_bits - 1)).
Proof.
  intros Hh Hl. rewrite check_interval_spec by assumption.
  repeat split.
  - intros [H1 H2].
    destruct (Z.leb_spec low value), (Z.leb_spec value high); simpl; lia.
  - intros H.
    destruct (Z.leb_spec low value), (Z.leb_spec value high); simpl; lia.
  - rewrite Z.lor_spec.
    assert (Hbit : forall x, in_int x ->
               Z.testbit x (int_bits - 1) = (x <? 0)).
    { intros x Hx. apply Z.b2z_inj.
      rewrite Z.testbit_spec' by (unfold int_bits; lia).
      rewrite <- Z.shiftr_div_pow2 by (unfold int_bits; lia).
      rewrite sign_shift by assumption.
      destruct (x <? 0); reflexivity. }
    rewrite !Hbit by assumption.
    destruct (Z.ltb_spec (high - value) 0), (Z.ltb_spec (value - low) 0),
      (Z.leb_spec low value), (Z.leb_spec value high); simpl; lia.
Qed.

Lemma check_interval_correct_witness :
  check_interval 99 97 122 = 1 /\ check_interval 36 97 122 = 0.
Proof.
  assert (Hh : in_int (122 - 99)) by (unfold in_int, int_bits; simpl; lia).
  assert (Hl : in_int (99 - 97)) by (unfold in_int, int_bits; simpl; lia).
  assert (Hh' : in_int (122 - 36)) by (unfold in_int, int_bits; simpl; lia).
  assert (Hl' : in_int (36 - 97)) by (unfold in_int, int_bits; simpl; lia).
  split.
  - apply (proj1 (check_interval_correct 99 97 122 Hh Hl)). lia.
  - apply (proj1 (proj2 (check_interval_correct 36 97 122 Hh' Hl'))). lia.
Defined.

(** * Further properties of the program *)

(** ** The scopes along a sequence *)

Lemma run_scopes_app p q scs :
  run_scopes (p ++ q) scs = run_scopes q (run_scopes p scs).
Proof. revert scs. induction p as [|c p IH]; intros scs; simpl; auto. Qed.

Lemma run_emitted_app p q scs :
  run_emitted (p ++ q) scs = run_emitted p scs ++ run_emitted q (run_scopes p scs).
Proof.
  revert scs. induction p as [|c p IH]; intros scs; simpl; [reflexivity|].
  rewrite IH, app_assoc. reflexivity.
Qed.

Lemma classify_operand c : is_operand c = true -> classify c = Operand.
Proof.
  unfold is_operand, classify. intros H.
  destruct (Z.eqb_spec c 0) as [E|]; [subst c; discriminate|]. rewrite H. reflexivity.
Qed.

Lemma classify_is_add c : is_add c = true -> classify c = AdditiveOp.
Proof.
  unfold is_add. intros H.
  destruct (Z.eqb_spec c 43) as [E|]; [subst c; reflexivity|].
  destruct (Z.eqb_spec c 45) as [E|]; [subst c; reflexivity|discriminate].
Qed.

Lemma classify_is_mul c : is_mul c = true -> classify c = MultiplicativeOp.
Proof.
  unfold is_mul. intros H.
  destruct (Z.eqb_spec c 42) as [E|]; [subst c; reflexivity|].
  destruct (Z.eqb_spec c 47) as [E|]; [subst c; reflexivity|discriminate].
Qed.

Lemma is_add_not_mul c : is_add c = true -> is_mul c = false.
Proof.
  unfold is_add, is_mul. intros H.
  destruct (Z.eqb_spec c 43) as [E|]; [subst c; reflexivity|].
  destruct (Z.eqb_spec c 45) as [E|]; [subst c; reflexivity|discriminate].
Qed.

Lemma operator_add_or_mul op :
  is_operator op = true -> is_mul op = false -> is_add op = true.
Proof. unfold is_operator. intros H Hm. rewrite Hm, orb_false_r in H. exact H. Qed.

Lemma level_le e : (level e <= 2)%nat.
Proof. destruct e as [?|o ? ?|?]; simpl; try lia. destruct (is_mul o); lia. Qed.

(** The scopes and the output along the written form of a tree: the scopes
    below the top one are left alone, the top one gains the operators still
    pending, and output and pending operators together are the postfix
    form. *)
Lemma run_expr e :
  well_formed e = true ->
  forall sc outer,
    fits e sc ->
    exists p,
      run_scopes (infix e) (sc :: outer) = (p ++ sc) :: outer /\
      run_emitted (infix e) (sc :: outer) ++ p = postfix e /\
      (level e = 2%nat -> p = []) /\
      (level e = 1%nat -> exists op, p = [op] /\ is_mul op = true).
Proof.
  induction e as [c|op l IHl r IHr|e IH]; intros Hwf sc outer Hfit.
  - simpl in Hwf. exists []. simpl.
    unfold next_scopes, emitted. rewrite (classify_operand c Hwf).
    repeat split; try reflexivity. intros [=].
  - cbn [well_formed] in Hwf.
    apply andb_prop in Hwf as [Hwf Hlev].
    apply andb_prop in Hwf as [Hwf Hr].
    apply andb_prop in Hwf as [Hop Hl].
    specialize (IHl Hl). specialize (IHr Hr).
    change (infix (Bin op l r)) with (infix l ++ [op] ++ infix r).
    rewrite !run_scopes_app, !run_emitted_app, ?run_scopes_app.
    change (postfix (Bin op l r)) with (postfix l ++ postfix r ++ [op]).
    destruct (is_mul op) eqn:Hmul.
    + (* a product: the top scope has no [*] or [/] pending *)
      apply andb_prop in Hlev as [Hll Hlr].
      apply Nat.leb_le in Hll. apply Nat.leb_le in Hlr.
      assert (Hsc : sc = [] \/ exists a, sc = [a] /\ is_add a = true).
      { destruct Hfit as [Hf|[[_ Hf]|Hf]]; [|exact Hf|auto].
        simpl in Hf. rewrite Hmul in Hf. discriminate. }
      assert (Hl12 : level l = 1%nat \/ level l = 2%nat)
        by (pose proof (level_le l); lia).
      assert (Hfl : fits l sc).
      { destruct Hl12; [right; left; split; assumption|left; assumption]. }
      destruct (IHl sc outer Hfl) as (pl & Sl & El & Pl2 & Pl1).
      rewrite Sl.
      assert (Hstep : next_scopes op ((pl ++ sc) :: outer) = (op :: sc) :: outer /\
                      emitted op ((pl ++ sc) :: outer) = pl).
      { unfold next_scopes, emitted. rewrite (classify_is_mul op Hmul).
        destruct Hl12 as [Hl1|Hl2].
        - destruct (Pl1 Hl1) as (o & -> & Ho). simpl. rewrite Ho. auto.
        - rewrite (Pl2 Hl2). simpl.
          destruct Hsc as [->|(a & -> & Ha)]; [auto|].
          rewrite (is_add_not_mul a Ha). auto. }
      destruct Hstep as [Sop Eop].
      change (run_scopes [op] ((pl ++ sc) :: outer))
        with (next_scopes op ((pl ++ sc) :: outer)).
      change (run_emitted [op] ((pl ++ sc) :: outer))
        with (emitted op ((pl ++ sc) :: outer) ++ []).
      rewrite Sop, Eop, app_nil_r.
      assert (Hr2 : level r = 2%nat) by (pose proof (level_le r); lia).
      destruct (IHr (op :: sc) outer ltac:(left; exact Hr2)) as (pr & Sr & Er & Pr2 & _).
      rewrite (Pr2 Hr2) in Sr, Er. rewrite app_nil_r in Er. simpl in Sr.
      exists [op]. rewrite Sr. split; [reflexivity|]. split.
      * rewrite Er, <- El, <- !app_assoc. reflexivity.
      * simpl. rewrite Hmul. split; [intros [=]|]. intros _. eauto.
    + (* a sum: nothing is pending in the top scope *)
      apply Nat.leb_le in Hlev.
      assert (Hsc : sc = []).
      { destruct Hfit as [Hf|[[Hf _]|Hf]]; [| |exact Hf];
          simpl in Hf; rewrite Hmul in Hf; discriminate. }
      subst sc.
      assert (Hadd : is_add op = true) by (apply operator_add_or_mul; assumption).
      destruct (IHl [] outer ltac:(right; right; reflexivity))
        as (pl & Sl & El & _ & _).
      rewrite Sl, app_nil_r.
      change (run_scopes [op] (pl :: outer)) with (next_scopes op (pl :: outer)).
      change (run_emitted [op] (pl :: outer)) with (emitted op (pl :: outer) ++ []).
      unfold next_scopes at 1 2, emitted at 1. rewrite (classify_is_add op Hadd).
      simpl hd. rewrite app_nil_r.
      assert (Hfr : fits r [op]).
      { assert (Hr12 : level r = 1%nat \/ level r = 2%nat)
          by (pose proof (level_le r); lia).
        destruct Hr12; [right; left; split; eauto|left; assumption]. }
      destruct (IHr [op] outer Hfr) as (pr & Sr & Er & _ & _).
      exists (pr ++ [op]). rewrite Sr, <- app_assoc. split; [reflexivity|]. split.
      * rewrite <- El, <- Er, <- !app_assoc. reflexivity.
      * simpl. rewrite Hmul. split; intros [=].
  - simpl in Hwf.
    destruct (IH Hwf [] (sc :: outer) ltac:(right; right; reflexivity))
      as (p & S & E & _ & _).
    rewrite app_nil_r in S.
    exists []. simpl infix.
    change (40 :: infix e ++ [41]) with ([40] ++ infix e ++ [41]).
    rewrite !run_scopes_app, !run_emitted_app, ?run_scopes_app.
    change (run_scopes [40] (sc :: outer)) with ([] :: sc :: outer).
    change (run_emitted [40] (sc :: outer)) with (@nil Z).
    rewrite S.
    change (run_scopes [41] (p :: sc :: outer)) with (sc :: outer).
    change (run_emitted [41] (p :: sc :: outer)) with (p ++ []).
    simpl. rewrite !app_nil_r. repeat split; auto. intros [=].
Qed.

Lemma is_operand_alphabet c : is_operand c = true -> in_alphabet c = true.
Proof. unfold in_alphabet. intros ->. reflexivity. Qed.

Lemma is_operator_alphabet c : is_operator c = true -> in_alphabet c = true.
Proof. unfold in_alphabet. intros ->. rewrite orb_true_r. reflexivity. Qed.

Lemma infix_alphabet e :
  well_formed e = true -> Forall (fun c => in_alphabet c = true) (infix e).
Proof.
  induction e as [c|op l IHl r IHr|e IH]; cbn [well_formed infix]; intros Hwf.
  - repeat constructor. apply is_operand_alphabet, Hwf.
  - apply andb_prop in Hwf as [Hwf _].
    apply andb_prop in Hwf as [Hwf Hr].
    apply andb_prop in Hwf as [Hop Hl].
    apply Forall_app. split; [auto|].
    constructor; [apply is_operator_alphabet, Hop|auto].
  - constructor; [reflexivity|]. apply Forall_app. split; [auto|].
    repeat constructor.
Qed.

Lemma nesting_symbol c rest d :
  c <> 40 -> c <> 41 -> nesting d (c :: rest) = nesting d rest.
Proof.
  intros H40 H41. simpl.
  destruct (Z.eqb_spec c 40); [contradiction|].
  destruct (Z.eqb_spec c 41); [contradiction|reflexivity].
Qed.

Lemma operand_not_bracket c : is_operand c = true -> c <> 40 /\ c <> 41.
Proof.
  unfold is_operand. intros H. apply andb_prop in H as [H _].
  apply Z.leb_le in H. lia.
Qed.

Lemma operator_not_bracket c : is_operator c = true -> c <> 40 /\ c <> 41.
Proof. intros H. destruct (is_operator_cases c H) as [|[|[|]]]; lia. Qed.

Lemma infix_nesting e :
  well_formed e = true -> forall d, nesting d (infix e) = Some d.
Proof.
  induction e as [c|op l IHl r IHr|e IH]; cbn [well_formed infix]; intros Hwf d.
  - destruct (operand_not_bracket c Hwf). rewrite nesting_symbol by assumption.
    reflexivity.
  - apply andb_prop in Hwf as [Hwf _].
    apply andb_prop in Hwf as [Hwf Hr].
    apply andb_prop in Hwf as [Hop Hl].
    destruct (operator_not_bracket op Hop).
    rewrite nesting_app, IHl, nesting_symbol by assumption. auto.
  - change (nesting d (40 :: infix e ++ [41])) with (nesting (S d) (infix e ++ [41])).
    rewrite nesting_app, IH by assumption. reflexivity.
Qed.

(** What a conversion that comes to its end has printed: what the
    characters made it print, the operators left in the top scope, and the
    newline. *)
Lemma convert_output str d' m :
  Forall (fun c => in_alphabet c = true) str ->
  nesting 0 str = Some d' ->
  convert str main_machine = Ok tt m ->
  stdout m = run_emitted str [[]] ++ hd [] (run_scopes str [[]]) ++ [newline].
Proof.
  intros Hstr Hnest E.
  destruct (convert_walked str m Hstr E) as [m1 E1].
  destruct (walk_prefix str d' Hstr Hnest) as (Hpart & _ & Hall & Hlen).
  destruct (Hpart m1 E1) as [H1 O1].
  destruct (run_scopes str [[]]) as [|sc outer]; [discriminate|].
  inversion Hall as [|? ? Hsc _]; subst.
  destruct (pending_operators sc Hsc) as [Hscops Hsclen].
  rewrite flatten_cons in H1.
  destruct (flush_scope sc (0 :: flatten outer) m1 H1 Hscops ltac:(eauto) Hsclen)
    as (m2 & E2 & _ & O2 & _).
  rewrite <- (app_nil_r str) in E. rewrite convert_app in E by assumption.
  rewrite (bind_ok _ _ _ _ _ E1) in E. cbv beta in E. rewrite convert_end in E.
  rewrite (bind_ok _ _ _ _ _ E2) in E. injection E as <-.
  simpl. rewrite O2, O1, <- app_assoc. reflexivity.
Qed.

(** X1.  For every expression tree whose written form stands for it
    (operands [a]-[z], the four operators, [*] and [/] binding tighter,
    equal priorities grouping to the left, brackets where wanted): whenever
    the conversion of the written form comes to its end it has printed
    exactly the postfix form of the tree and a newline, and it does come to
    its end when at most 20 brackets are open at a time. *)
Theorem convert_prints_postfix (e : expr) :
  well_formed e = true ->
  (forall m, convert (infix e) main_machine = Ok tt m ->
             stdout m = postfix e ++ [newline]) /\
  ((max_nesting 0 (infix e) <= 20)%nat ->
   exists m, convert (infix e) main_machine = Ok tt m /\
             stdout m = postfix e ++ [newline]).
Proof.
  intros Hwf.
  pose proof (infix_alphabet e Hwf) as Hal.
  pose proof (infix_nesting e Hwf 0%nat) as Hnest.
  assert (Hpart : forall m, convert (infix e) main_machine = Ok tt m ->
                            stdout m = postfix e ++ [newline]).
  { intros m E. rewrite (convert_output _ _ _ Hal Hnest E).
    destruct (run_expr e Hwf [] [] ltac:(right; right; reflexivity))
      as (p & S & Ep & _).
    rewrite S, app_nil_r, app_assoc. simpl hd. rewrite Ep. reflexivity. }
  split; [exact Hpart|].
  intros Hmax.
  destruct (convert_scopes _ _ Hal Hnest Hmax) as (m & _ & E & _).
  exists m. auto.
Qed.

Lemma convert_prints_postfix_witness :
  exists m,
    convert (cstring "(a+b)*c-d/e") main_machine = Ok tt m /\
    stdout m = cstring "ab+c*de/-" ++ [newline].
Proof.
  refine (proj2 (convert_prints_postfix
                   (Bin 45 (Bin 42 (Paren (Bin 43 (Var 97) (Var 98))) (Var 99))
                      (Bin 47 (Var 100) (Var 101))) _) _).
  - reflexivity.
  - vm_compute. lia.
Defined.

(** ** Nothing is lost and nothing is printed twice *)

Lemma symbols_app l1 l2 : symbols (l1 ++ l2) = symbols l1 ++ symbols l2.
Proof. apply List.filter_app. Qed.

Lemma symbols_cons c l : symbols (c :: l) = symbols [c] ++ symbols l.
Proof. apply (symbols_app [c] l). Qed.

Lemma symbols_symbol c : c <> 40 -> c <> 41 -> symbols [c] = [c].
Proof.
  intros H40 H41. unfold symbols. simpl.
  destruct (Z.eqb_spec c 40); [contradiction|].
  destruct (Z.eqb_spec c 41); [contradiction|reflexivity].
Qed.

(** One character: what is printed and what is pending afterwards is what
    was pending before and the character, unless it is a bracket. *)
Lemma step_conserves c sc outer :
  in_alphabet c = true ->
  emitted c (sc :: outer) ++ concat (next_scopes c (sc :: outer))
  ≡ₚ symbols [c] ++ concat (sc :: outer).
Proof.
  intros Hc. destruct (in_alphabet_classify c Hc) as [_ Hk].
  unfold emitted, next_scopes.
  destruct Hk as [[Hk Hop]|[[Hk Hadd]|[[Hk Hmul]|[[Hk Hb]|[Hk Hb]]]]]; rewrite Hk.
  - destruct (operand_not_bracket c Hop). rewrite symbols_symbol by assumption.
    reflexivity.
  - destruct (operator_not_bracket c) as [H40 H41];
      [unfold is_operator; rewrite Hadd; reflexivity|].
    rewrite symbols_symbol by assumption. simpl.
    symmetry. apply Permutation_middle.
  - destruct (operator_not_bracket c) as [H40 H41];
      [unfold is_operator; rewrite Hmul; apply orb_true_r|].
    rewrite symbols_symbol by assumption.
    destruct sc as [|x ops]; [reflexivity|].
    destruct (is_mul x); simpl; [apply perm_swap|reflexivity].
  - subst c. reflexivity.
  - subst c. reflexivity.
Qed.

Lemma run_conserves p :
  forall scs d d',
    length scs = S d -> nesting d p = Some d' ->
    Forall (fun c => in_alphabet c = true) p ->
    run_emitted p scs ++ concat (run_scopes p scs) ≡ₚ symbols p ++ concat scs.
Proof.
  induction p as [|c rest IH]; intros scs d d' Hlen Hnest Hp.
  - reflexivity.
  - destruct scs as [|sc outer]; [discriminate|].
    simpl in Hlen. injection Hlen as Hlen.
    inversion Hp as [|? ? Hc Hrest]; subst.
    destruct (nesting_cons _ _ _ _ Hnest) as (d1 & Hn1 & Hl1 & _).
    specialize (Hl1 sc outer eq_refl).
    simpl run_emitted. simpl run_scopes. rewrite <- app_assoc.
    rewrite (IH _ d1 d' Hl1 Hn1 Hrest).
    rewrite symbols_cons.
    rewrite (app_assoc (emitted _ _)), (Permutation_app_comm (emitted _ _)).
    rewrite <- !app_assoc, (step_conserves c sc outer Hc).
    rewrite !app_assoc. apply Permutation_app_tail, Permutation_app_comm.
Qed.

(** X2.  For every sequence of operands, operators and brackets in which
    every bracket is matched, grammatical or not: whenever the conversion
    comes to its end, what it has printed before the newline is a
    rearrangement of the characters of the input without the brackets, every
    operand and operator exactly as often as in the input; and it does come
    to its end when at most 20 brackets are open at a time. *)
Theorem convert_rearranges_symbols (str : list Z) :
  balanced str ->
  (forall m, convert str main_machine = Ok tt m ->
             exists out, stdout m = out ++ [newline] /\ out ≡ₚ symbols str) /\
  ((max_nesting 0 str <= 20)%nat ->
   exists m out, convert str main_machine = Ok tt m /\
                 stdout m = out ++ [newline] /\ out ≡ₚ symbols str).
Proof.
  intros [Hstr Hnest].
  assert (Hpart : forall m, convert str main_machine = Ok tt m ->
             exists out, stdout m = out ++ [newline] /\ out ≡ₚ symbols str).
  { intros m E.
    exists (run_emitted str [[]] ++ hd [] (run_scopes str [[]])). split.
    - rewrite (convert_output _ _ _ Hstr Hnest E), app_assoc. reflexivity.
    - pose proof (run_conserves str [[]] 0%nat 0%nat eq_refl Hnest Hstr) as Hperm.
      destruct (run_scopes_pending str [[]] 0%nat 0%nat eq_refl Hnest)
        as [_ Hlen]; [repeat constructor|exact Hstr|].
      destruct (run_scopes str [[]]) as [|sc [|? ?]]; try discriminate.
      simpl in *. rewrite !app_nil_r in Hperm. exact Hperm. }
  split; [exact Hpart|].
  intros Hmax.
  destruct (convert_scopes _ _ Hstr Hnest Hmax) as (m & _ & E & _).
  destruct (Hpart m E) as (out & O & Hperm). eauto.
Qed.

Lemma convert_rearranges_symbols_witness :
  exists m out, convert (cstring "(a*+)b-(c)") main_machine = Ok tt m /\
                stdout m = out ++ [newline] /\
                out ≡ₚ symbols (cstring "(a*+)b-(c)").
Proof.
  assert (Hb : balanced (cstring "(a*+)b-(c)"))
    by (split; [repeat constructor|reflexivity]).
  apply (proj2 (convert_rearranges_symbols _ Hb)).
  vm_compute. lia.
Defined.

(** ** A bracketed sequence leaves the stack as it found it *)

Lemma nesting_shift p : forall d d' k,
  nesting d p = Some d' -> nesting (k + d) p = Some (k + d')%nat.
Proof.
  induction p as [|c p IH]; intros d d' k; simpl.
  - intros [= ->]. reflexivity.
  - destruct (c =? 40).
    + intros H. rewrite <- (IH _ _ k H), Nat.add_succ_r. reflexivity.
    + destruct (c =? 41); [|apply IH].
      destruct d as [|d0]; [discriminate|]. intros H.
      rewrite Nat.add_succ_r. apply IH, H.
Qed.

Lemma max_nesting_shift p : forall d d' k,
  nesting d p = Some d' -> max_nesting (k + d) p = (k + max_nesting d p)%nat.
Proof.
  induction p as [|c p IH]; intros d d' k; simpl.
  - reflexivity.
  - destruct (c =? 40).
    + intros H. rewrite <- Nat.add_succ_r, (IH _ _ k H). lia.
    + destruct (c =? 41); [|apply IH].
      destruct d as [|d0]; [discriminate|]. intros H.
      rewrite Nat.add_succ_r. simpl. rewrite (IH _ _ k H). lia.
Qed.

Lemma max_nesting_app_eq p q : forall d d1,
  nesting d p = Some d1 ->
  max_nesting d (p ++ q) = Nat.max (max_nesting d p) (max_nesting d1 q).
Proof.
  induction p as [|c p IH]; intros d d1; simpl.
  - intros [= ->]. pose proof (max_nesting_ge q d1). lia.
  - destruct (c =? 40).
    + intros H. rewrite (IH _ _ H). lia.
    + destruct (c =? 41); [|apply IH].
      destruct d as [|d0]; [discriminate|]. intros H.
      simpl. rewrite (IH _ _ H). lia.
Qed.

Lemma next_scopes_frame c sc inner outer :
  next_scopes c ((sc :: inner) ++ outer) = next_scopes c (sc :: inner) ++ outer /\
  emitted c ((sc :: inner) ++ outer) = emitted c (sc :: inner).
Proof.
  unfold next_scopes, emitted.
  destruct (classify c); try (split; reflexivity).
  destruct sc as [|x ops]; split; reflexivity.
Qed.

(** The scopes below the ones a sequence starts in are left alone. *)
Lemma run_scopes_frame p :
  forall inner outer d d',
    length inner = S d -> nesting d p = Some d' ->
    run_scopes p (inner ++ outer) = run_scopes p inner ++ outer /\
    run_emitted p (inner ++ outer) = run_emitted p inner.
Proof.
  induction p as [|c rest IH]; intros inner outer d d' Hlen Hnest.
  - split; reflexivity.
  - destruct inner as [|sc inner]; [discriminate|].
    simpl in Hlen. injection Hlen as Hlen.
    destruct (nesting_cons _ _ _ _ Hnest) as (d1 & Hn1 & Hl1 & _).
    specialize (Hl1 sc inner Hlen).
    destruct (next_scopes_frame c sc inner outer) as [Sn En].
    cbn [run_scopes run_emitted]. rewrite Sn, En.
    destruct (IH _ outer d1 d' Hl1 Hn1) as [Sr Er].
    rewrite Sr, Er. split; reflexivity.
Qed.

(** X3.  An open bracket, a sequence in which every bracket is matched, and
    the close bracket, handled from a state whose stack is made of scopes
    with room for three more entries for each bracket level of the sequence:
    the live stack afterwards is exactly what it was before the open bracket,
    and what has been printed meanwhile is a rearrangement of the operands
    and operators of the sequence, so none of its operators is still
    pending. *)
Theorem bracket_round_trip (e : list Z) (scs : list (list Z)) (m : machine) :
  balanced e ->
  scs <> [] ->
  stack_is (flatten scs) m ->
  Forall (fun ops => pending ops = true) scs ->
  (3 * (length scs + max_nesting 0 e + 1) <= Z.to_nat MAX_STACK_DEPTH)%nat ->
  exists m' out,
    walk (40 :: e ++ [41]) m = Ok tt m' /\
    stack_is (flatten scs) m' /\
    stdout m' = stdout m ++ out /\
    out ≡ₚ symbols e.
Proof.
  intros [He Hnest] Hne H Hall Hcap.
  destruct scs as [|sc outer]; [contradiction|]. clear Hne.
  set (d := length outer).
  assert (Hstr : Forall (fun c => in_alphabet c = true) (40 :: e ++ [41])).
  { constructor; [reflexivity|]. apply Forall_app. split; [exact He|].
    repeat constructor. }
  assert (Hn : nesting d (40 :: e ++ [41]) = Some d).
  { change (nesting d (40 :: e ++ [41])) with (nesting (S d) (e ++ [41])).
    rewrite nesting_app.
    pose proof (nesting_shift e 0%nat 0%nat (S d) Hnest) as Hs.
    rewrite !Nat.add_0_r in Hs. rewrite Hs. reflexivity. }
  assert (Hm : (max_nesting d (40%Z :: e ++ [41%Z]) <= S d + max_nesting 0 e)%nat).
  { change (max_nesting d (40 :: e ++ [41]))
      with (Nat.max d (max_nesting (S d) (e ++ [41]))).
    pose proof (nesting_shift e 0%nat 0%nat (S d) Hnest) as Hs.
    pose proof (max_nesting_shift e 0%nat 0%nat (S d) Hnest) as Hms.
    rewrite !Nat.add_0_r in Hs, Hms.
    rewrite (max_nesting_app_eq e [41] _ _ Hs), Hms. simpl. lia. }
  destruct (walk_scopes (40 :: e ++ [41]) m (sc :: outer) d d eq_refl Hn H Hall Hstr)
    as [Hpart Htot].
  destruct Htot as [m' E]; [simpl in Hcap; lia|].
  destruct (Hpart m' E) as [H' O'].
  assert (Hall0 : Forall (fun ops => pending ops = true) [[]])
    by (repeat constructor).
  destruct (run_scopes_pending e [[]] 0%nat 0%nat eq_refl Hnest Hall0 He)
    as [_ Hlen].
  destruct (run_scopes_frame e [[]] (sc :: outer) 0%nat 0%nat eq_refl Hnest)
    as [Sf Ef].
  pose proof (run_conserves e [[]] 0%nat 0%nat eq_refl Hnest He) as Hperm.
  destruct (run_scopes e [[]]) as [|sc' [|? ?]] eqn:Hrun; try discriminate.
  assert (Srun : run_scopes (40 :: e ++ [41]) (sc :: outer) = sc :: outer).
  { change (40 :: e ++ [41]) with ([40] ++ e ++ [41]).
    rewrite !run_scopes_app.
    change (run_scopes [40] (sc :: outer)) with ([[]] ++ sc :: outer).
    rewrite Sf. reflexivity. }
  assert (Erun : run_emitted (40 :: e ++ [41]) (sc :: outer)
                 = run_emitted e [[]] ++ sc').
  { change (40 :: e ++ [41]) with ([40] ++ e ++ [41]).
    rewrite !run_emitted_app.
    change (run_scopes [40] (sc :: outer)) with ([[]] ++ sc :: outer).
    rewrite Sf, Ef.
    change (run_emitted [40] (sc :: outer)) with (@nil Z).
    change (run_emitted [41] ([sc'] ++ sc :: outer)) with (sc' ++ []).
    rewrite app_nil_r. reflexivity. }
  exists m', (run_emitted e [[]] ++ sc').
  rewrite Srun in H'. rewrite Erun in O'.
  split; [exact E|]. split; [exact H'|]. split; [exact O'|].
  simpl in Hperm. rewrite !app_nil_r in Hperm. exact Hperm.
Qed.

Lemma bracket_round_trip_witness :
  exists m' out,
    walk (40 :: cstring "b-(c/d)*e" ++ [41])
      (Machine (Some 0 :: Some 43 :: Some 42 :: replicate 61 None) 2 (cstring "ab"))
    = Ok tt m' /\
    stack_is [42; 43; 0] m' /\
    stdout m' = cstring "ab" ++ out /\
    out ≡ₚ symbols (cstring "b-(c/d)*e").
Proof.
  apply (bracket_round_trip (cstring "b-(c/d)*e") [[42; 43]]
           (Machine (Some 0 :: Some 43 :: Some 42 :: replicate 61 None) 2
              (cstring "ab"))).
  - split; [repeat constructor|reflexivity].
  - discriminate.
  - split; [reflexivity|]. split; reflexivity.
  - repeat constructor.
  - vm_compute. lia.
Defined.

(** ** The handlers of the close bracket and of the end *)

(** X4.  On a close bracket, with the operators [ops] (at most two) above a
    sentinel: the operators are printed, top first, the sentinel is taken off
    the stack, no byte of the block is written, and the conversion goes on
    with the next character on the stack that was below the sentinel. *)
Theorem close_bracket_flush (rest ops below : list Z) (m : machine) :
  stack_is (ops ++ 0 :: below) m ->
  Forall (fun x => is_operator x = true) ops ->
  (length ops <= 2)%nat ->
  exists m',
    convert (41 :: rest) m = convert rest m' /\
    stack_is below m' /\
    stdout m' = stdout m ++ ops /\
    stack m' = stack m.
Proof.
  intros H Hops Hlen.
  destruct (flush_scope ops (0 :: below) m H Hops ltac:(eauto) Hlen)
    as (m1 & E1 & H1 & O1 & S1).
  destruct m1 as [s1 t1 o1]. simpl in O1, S1.
  exists (Machine s1 (t1 - 1) o1).
  split; [|split; [|split]].
  - simpl. rewrite dispatch_classify by (unfold is_char; lia). simpl.
    unfold handle_close_bracket. unfold flush in E1.
    rewrite <- bind_assoc, (bind_ok _ _ _ _ _ E1). cbv beta.
    rewrite (bind_ok _ _ _ _ _ (pop0_sentinel _ _ _ _ H1)). reflexivity.
  - apply (stack_is_tail _ _ _ _ _ H1).
  - exact O1.
  - exact S1.
Qed.

Lemma close_bracket_flush_witness :
  exists m',
    convert (41 :: cstring "*c")
      (Machine (Some 0 :: Some 0 :: Some 43 :: replicate 61 None) 2 (cstring "ab"))
    = convert (cstring "*c") m' /\
    stack_is [0] m' /\
    stdout m' = cstring "ab" ++ [43] /\
    stack m' = Some 0 :: Some 0 :: Some 43 :: replicate 61 None.
Proof.
  apply (close_bracket_flush (cstring "*c") [43] [0]
           (Machine (Some 0 :: Some 0 :: Some 43 :: replicate 61 None) 2
              (cstring "ab"))).
  - split; [reflexivity|]. split; reflexivity.
  - repeat constructor.
  - simpl. lia.
Defined.

(** X5.  At the terminator, with the operators [ops] (at most two) above a
    sentinel or the stack bottom: the operators are printed, top first, then a
    newline, and the conversion returns; the sentinel stays on the stack, no
    byte of the block is written, and whatever follows the terminator in
    memory is not looked at. *)
Theorem end_of_input_flush (rest ops below : list Z) (m : machine) :
  stack_is (ops ++ 0 :: below) m ->
  Forall (fun x => is_operator x = true) ops ->
  (length ops <= 2)%nat ->
  exists m',
    convert (0 :: rest) m = Ok tt m' /\
    convert [] m = Ok tt m' /\
    stack_is (0 :: below) m' /\
    stdout m' = stdout m ++ ops ++ [newline] /\
    stack m' = stack m.
Proof.
  intros H Hops Hlen.
  destruct (flush_scope ops (0 :: below) m H Hops ltac:(eauto) Hlen)
    as (m1 & E1 & H1 & O1 & S1).
  destruct m1 as [s1 t1 o1]. simpl in O1, S1.
  exists (Machine s1 t1 (o1 ++ [newline])).
  assert (E : convert [] m = Ok tt (Machine s1 t1 (o1 ++ [newline]))).
  { rewrite convert_end, (bind_ok _ _ _ _ _ E1). reflexivity. }
  split; [|split; [exact E|split; [|split]]].
  - rewrite <- E. simpl. rewrite !dispatch_end. reflexivity.
  - apply (stack_is_stdout _ _ _ o1), H1.
  - simpl. rewrite O1, <- app_assoc. reflexivity.
  - exact S1.
Qed.

Lemma end_of_input_flush_witness :
  exists m',
    convert (0 :: cstring "+z")
      (Machine (Some 0 :: Some 0 :: Some 45 :: Some 47 :: replicate 60 None) 3
         (cstring "abc"))
    = Ok tt m' /\
    convert []
      (Machine (Some 0 :: Some 0 :: Some 45 :: Some 47 :: replicate 60 None) 3
         (cstring "abc"))
    = Ok tt m' /\
    stack_is [0; 0] m' /\
    stdout m' = cstring "abc" ++ [47; 45] ++ [newline] /\
    stack m' = Some 0 :: Some 0 :: Some 45 :: Some 47 :: replicate 60 None.
Proof.
  apply (end_of_input_flush (cstring "+z") [47; 45] [0]
           (Machine (Some 0 :: Some 0 :: Some 45 :: Some 47 :: replicate 60 None) 3
              (cstring "abc"))).
  - split; [reflexivity|]. split; reflexivity.
  - repeat constructor.
  - simpl. lia.
Defined.

(** ** The guard of the printing *)

(** X6.  [print_symbol] prints a character exactly when its code is between
    1 and [ASCII_MAX]: the 0 that a pop returns at a sentinel and any
    character above 127 or negative are passed over.  It never touches the
    stack. *)
Theorem print_symbol_guard (c : Z) (m : machine) :
  is_char c ->
  print_symbol c m
  = Ok tt (Machine (stack m) (stack_top m)
             (stdout m ++ if (1 <=? c) && (c <=? ASCII_MAX) then [c] else [])).
Proof.
  intros Hc. unfold ASCII_MAX.
  destruct (Z.leb_spec 1 c), (Z.leb_spec c 127); simpl;
    try (rewrite print_symbol_other by (assumption || lia);
         rewrite app_nil_r; destruct m; reflexivity).
  apply print_symbol_printable. lia.
Qed.

Lemma print_symbol_guard_witness :
  print_symbol 0 (Machine [Some 0] 0 [97])
  = Ok tt (Machine [Some 0] 0 ([97] ++ [])) /\
  print_symbol 43 (Machine [Some 0] 0 [97])
  = Ok tt (Machine [Some 0] 0 ([97] ++ [43])).
Proof.
  split.
  - apply (print_symbol_guard 0 (Machine [Some 0] 0 [97])). unfold is_char. lia.
  - apply (print_symbol_guard 43 (Machine [Some 0] 0 [97])). unfold is_char. lia.
Defined.

Lemma land_one x : Z.land x 1 = 0 \/ Z.land x 1 = 1.
Proof.
  pose proof (Z.land_ones x 1 ltac:(lia)) as H.
  change (Z.ones 1) with 1 in H. change (2 ^ 1) with 2 in H.
  pose proof (Z.mod_pos_bound x 2 ltac:(lia)). lia.
Qed.

(** X7.  Whatever its arguments, also when a difference overflows,
    [check_interval] returns 0 or 1; so the call of [print_symbol] through its
    table of two functions is always inside the table: for no value at all
    does it leave the table, write to the stack or move the stack pointer. *)
Theorem check_interval_is_bit (value low high c : Z) (m : machine) :
  (check_interval value low high = 0 \/ check_interval value low high = 1) /\
  exists m', print_symbol c m = Ok tt m' /\
             stack m' = stack m /\ stack_top m' = stack_top m /\
             (stdout m' = stdout m \/ stdout m' = stdout m ++ [c]).
Proof.
  split; [apply land_one|].
  unfold print_symbol.
  destruct (land_one (Z.lnot (Z.shiftr (Z.lor (to_int (ASCII_MAX - c)) (to_int (c - 1)))
                               (int_bits - 1)))) as [E|E];
    unfold check_interval; rewrite E.
  - exists m. simpl. auto.
  - eexists. split; [reflexivity|]. simpl. auto.
Qed.

(** ** How much of the block is used *)

(** X8.  After any prefix of a sequence of operands, operators and brackets
    with no unmatched close bracket, handled from [main]'s state: with [d]
    brackets open the stack pointer is at least [d] and at most [3 * d + 2]
    bytes above the bottom, a sentinel and at most two operators for each
    scope. *)
Theorem stack_usage_bound (p : list Z) (d : nat) (m : machine) :
  Forall (fun c => in_alphabet c = true) p ->
  nesting 0 p = Some d ->
  walk p main_machine = Ok tt m ->
  Z.of_nat d <= stack_top m <= 3 * Z.of_nat d + 2.
Proof.
  intros Hp Hnest E.
  destruct (walk_prefix p d Hp Hnest) as (Hpart & _ & Hall & Hlen).
  destruct (Hpart m E) as [(_ & Htop & _) _].
  pose proof (flatten_length _ Hall).
  pose proof (flatten_length_ge (run_scopes p [[]])).
  lia.
Qed.

Lemma stack_usage_bound_witness :
  2 <= stack_top (Machine (Some 0 :: Some 43 :: Some 0 :: Some 42 :: Some 0
                             :: Some 45 :: Some 47 :: replicate 57 None) 6
                    (cstring "abcd")) <= 3 * 2 + 2.
Proof.
  apply (stack_usage_bound (cstring "a+(b*(c-d/") 2).
  - repeat constructor.
  - reflexivity.
  - vm_compute. reflexivity.
Defined.

(** ** How many brackets fit *)

Lemma nested_within :
  forallb (fun n =>
             match convert (nested n) main_machine with
             | Ok _ m => bool_decide (stdout m = [97; newline]) &&
                         bool_decide (stack_top m = 0)
             | Undefined _ => false
             end) (seq 0 64) = true.
Proof. vm_compute. reflexivity. Qed.

Lemma nested_beyond n :
  (64 <= n)%nat ->
  exists m, convert (nested n) main_machine = Undefined m /\
            stack_top m = MAX_STACK_DEPTH /\ stdout m = [].
Proof.
  intros Hn. unfold nested.
  assert (Hsplit : replicate n 40 = replicate 64 40 ++ replicate (n - 64) 40).
  { rewrite <- replicate_add. f_equal. lia. }
  rewrite Hsplit, <- app_assoc.
  assert (E : exists m, walk (replicate 64 40) main_machine = Undefined m /\
                        stack_top m = MAX_STACK_DEPTH /\ stdout m = []).
  { eexists. split; [vm_compute; reflexivity|]. split; reflexivity. }
  destruct E as (m & E & Htop & Hout). exists m.
  rewrite convert_app by (apply Forall_replicate; reflexivity).
  rewrite (bind_undefined _ _ _ _ E). auto.
Qed.

(** X9.  The operand [a] in [n] pairs of brackets: up to 63 pairs the
    conversion prints [a] and a newline and ends with the stack as [main] set
    it up; from 64 pairs on the 64th open bracket is stored past the end of
    the block, before anything is printed. *)
Theorem nested_brackets_capacity (n : nat) :
  if (n <=? 63)%nat
  then exists m, convert (nested n) main_machine = Ok tt m /\
                 stdout m = [97; newline] /\ stack_top m = 0
  else exists m, convert (nested n) main_machine = Undefined m /\
                 stack_top m = MAX_STACK_DEPTH /\ stdout m = [].
Proof.
  destruct (Nat.leb_spec n 63) as [Hn|Hn].
  - pose proof nested_within as H.
    rewrite List.forallb_forall in H.
    specialize (H n ltac:(apply List.in_seq; lia)).
    destruct (convert (nested n) main_machine) as [[] m|m]; [|discriminate].
    apply andb_prop in H as [H1 H2].
    apply bool_decide_eq_true in H1. apply bool_decide_eq_true in H2.
    exists m. auto.
  - apply nested_beyond. lia.
Qed.

(** ** The output is only added to *)

Section AppendsOnly.

Lemma appends_only_ret {A} (a : A) : appends_only (ret a).
Proof. intros s t o o0. reflexivity. Qed.

Lemma appends_only_bind {A B} (x : M A) (f : A -> M B) :
  appends_only x -> (forall a, appends_only (f a)) -> appends_only (bind x f).
Proof.
  intros Hx Hf s t o o0. unfold bind. rewrite Hx.
  destruct (x (Machine s t o)) as [a [s1 t1 o1]|[s1 t1 o1]]; simpl; [|reflexivity].
  apply Hf.
Qed.

Lemma appends_only_undefined {A} : appends_only (@Undefined A).
Proof. intros s t o o0. reflexivity. Qed.

Lemma appends_only_load : appends_only load.
Proof.
  intros s t o o0. unfold load. simpl.
  destruct ((0 <=? t) && (t <? MAX_STACK_DEPTH)); [|reflexivity].
  destruct (s !! Z.to_nat t) as [[c|]|]; reflexivity.
Qed.

Lemma appends_only_store c : appends_only (store c).
Proof.
  intros s t o o0. unfold store. simpl.
  destruct ((0 <=? t) && (t <? MAX_STACK_DEPTH)); reflexivity.
Qed.

Lemma appends_only_move_top d : appends_only (move_top d).
Proof. intros s t o o0. reflexivity. Qed.

Lemma appends_only_printf_s l : appends_only (printf_s l).
Proof. intros s t o o0. unfold printf_s. simpl. rewrite app_assoc. reflexivity. Qed.

Lemma appends_only_printf_c c : appends_only (printf_c c).
Proof. intros s t o o0. unfold printf_c. simpl. rewrite app_assoc. reflexivity. Qed.

Lemma appends_only_call {F} (table : list F) index (run : F -> M unit) :
  Forall (fun f => appends_only (run f)) table ->
  appends_only (call table index run).
Proof.
  intros Htable. unfold call.
  destruct (index <? 0); [apply appends_only_undefined|].
  destruct (table !! Z.to_nat index) as [f|] eqn:E; [|apply appends_only_undefined].
  apply (Forall_lookup_1 _ _ _ _ Htable E).
Qed.

Lemma appends_only_push c : appends_only (push c).
Proof.
  apply appends_only_bind; [apply appends_only_move_top|].
  intros _. apply appends_only_store.
Qed.

Lemma appends_only_print_symbol c : appends_only (print_symbol c).
Proof.
  apply appends_only_call.
  repeat (apply List.Forall_cons || apply List.Forall_nil).
  - apply appends_only_ret.
  - apply appends_only_printf_c.
Qed.

Lemma appends_only_pop_print : appends_only (do x <- pop; print_symbol x).
Proof.
  apply appends_only_bind; [|intros x; apply appends_only_print_symbol].
  apply appends_only_bind; [apply appends_only_load|]. intros c.
  apply appends_only_bind; [apply appends_only_move_top|]. intros _.
  apply appends_only_ret.
Qed.

Lemma appends_only_pop_mul_div_print :
  appends_only (do x <- pop_mul_div; print_symbol x).
Proof.
  apply appends_only_bind; [|intros x; apply appends_only_print_symbol].
  apply appends_only_bind; [apply appends_only_load|]. intros c.
  apply appends_only_bind; [apply appends_only_move_top|]. intros _.
  apply appends_only_ret.
Qed.

Lemma appends_only_pop0 : appends_only pop0.
Proof.
  apply appends_only_bind; [apply appends_only_load|]. intros c.
  apply appends_only_move_top.
Qed.

Lemma appends_only_handlers c next :
  appends_only next ->
  Forall (fun handler : ACTION => appends_only (handler c next)) call_table.
Proof.
  intros Hnext.
  repeat (apply List.Forall_cons || apply List.Forall_nil);
    unfold handle_error, handle_end, handle_symbol, handle_add_sub, handle_mul_div,
      handle_open_bracket, handle_close_bracket;
    repeat first
      [ assumption
      | apply appends_only_printf_s
      | apply appends_only_printf_c
      | apply appends_only_push
      | apply appends_only_pop0
      | apply appends_only_pop_print
      | apply appends_only_pop_mul_div_print
      | apply appends_only_bind
      | intros _ ].
Qed.

Lemma appends_only_dispatch c next :
  appends_only next -> appends_only (dispatch c next).
Proof.
  intros Hnext. unfold dispatch.
  apply (appends_only_call call_table (call_index c) (fun handler => handler c next)).
  apply appends_only_handlers, Hnext.
Qed.

Lemma appends_only_convert str : appends_only (convert str).
Proof.
  induction str as [|c rest IH]; simpl.
  - apply appends_only_dispatch, appends_only_undefined.
  - apply appends_only_dispatch, IH.
Qed.

End AppendsOnly.


(** ** The whole program *)

Lemma until_nul_alphabet l :
  Forall (fun c => in_alphabet c = true) l -> until_nul l = l.
Proof.
  induction 1 as [|c l Hc _ IH]; [reflexivity|]. simpl.
  destruct (Z.eqb_spec c 0) as [E|]; [subst c; discriminate|].
  rewrite IH. reflexivity.
Qed.

(** X11.  The program called with the written form of an expression tree as
    its last argument (at most 20 brackets open at a time) prints the line
    [INPUT:  ] with the expression, then [OUTPUT: ] with the postfix form of
    the tree, and a newline; the arguments before the last are not looked
    at. *)
Theorem main_prints_postfix (args : list (list Z)) (e : expr) :
  well_formed e = true ->
  (max_nesting 0 (infix e) <= 20)%nat ->
  exists m,
    main (args ++ [infix e]) = Ok tt m /\
    stdout m = cstring "INPUT:  " ++ infix e ++ [newline] ++
               cstring "OUTPUT: " ++ postfix e ++ [newline].
Proof.
  intros Hwf Hmax.
  pose proof (infix_alphabet e Hwf) as Hal.
  pose proof (infix_nesting e Hwf 0%nat) as Hnest.
  destruct (convert_scopes _ _ Hal Hnest Hmax) as (m & _ & E & _).
  destruct (run_expr e Hwf [] [] ltac:(right; right; reflexivity))
    as (p & S & Ep & _).
  pose proof (convert_output _ _ _ Hal Hnest E) as O.
  rewrite S, app_nil_r, app_assoc in O. simpl hd in O. rewrite Ep in O.
  unfold main. rewrite length_app. simpl length.
  replace (Z.of_nat (length args + 1) - 1) with (Z.of_nat (length args)) by lia.
  destruct (Z.ltb_spec (Z.of_nat (length args)) 0); [lia|].
  rewrite Nat2Z.id, list_lookup_middle by reflexivity.
  rewrite (until_nul_alphabet _ Hal).
  set (header := cstring "INPUT:  " ++ infix e ++ [newline]).
  change ((printf_s header ;; printf_s (cstring "OUTPUT: ") ;; malloc_stack ;;
           store 0 ;; convert (infix e)) (Machine [] 0 []))
    with (convert (infix e)
            (Machine (stack main_machine) 0 (header ++ cstring "OUTPUT: "))).
  pose proof (appends_only_convert (infix e) (stack main_machine) 0 []
                (header ++ cstring "OUTPUT: ")) as Hc.
  rewrite app_nil_r in Hc.
  change (Machine (stack main_machine) 0 []) with main_machine in Hc.
  rewrite Hc, E. simpl.
  eexists. split; [reflexivity|]. simpl. rewrite O.
  unfold header. rewrite <- !app_assoc. reflexivity.
Qed.

Lemma main_prints_postfix_witness :
  exists m,
    main ([cstring "./acyclomatic"] ++ [cstring "a+b*c"]) = Ok tt m /\
    stdout m = cstring "INPUT:  " ++ cstring "a+b*c" ++ [newline] ++
               cstring "OUTPUT: " ++ cstring "abc*+" ++ [newline].
Proof.
  apply (main_prints_postfix [cstring "./acyclomatic"]
           (Bin 43 (Var 97) (Bin 42 (Var 98) (Var 99)))).
  - reflexivity.
  - vm_compute. lia.
Defined.

(** ** After an unmatched close bracket *)

Lemma load_below m : stack_is [] m -> load m = Undefined m.
Proof. intros (_ & Htop & _). unfold load. rewrite Htop. reflexivity. Qed.

Lemma pop_print_below m :
  stack_is [] m -> (do x <- pop; print_symbol x) m = Undefined m.
Proof.
  intros H. apply bind_undefined. unfold pop. apply bind_undefined, load_below, H.
Qed.

Lemma pop_mul_div_print_below m :
  stack_is [] m -> (do x <- pop_mul_div; print_symbol x) m = Undefined m.
Proof.
  intros H. apply bind_undefined. unfold pop_mul_div.
  apply bind_undefined, load_below, H.
Qed.

(** A close bracket after a sequence in which every bracket is matched takes
    the 0 at the bottom off the stack. *)
Lemma walk_unmatched_close p :
  balanced p -> (max_nesting 0 p <= 20)%nat ->
  exists m, walk (p ++ [41]) main_machine = Ok tt m /\
            stack_is [] m /\
            Forall (fun x => expression_char x = true) (stdout m).
Proof.
  intros [Hp Hnest] Hmax.
  destruct (walk_prefix p 0%nat Hp Hnest) as (Hpart & Htot & Hall & Hlen).
  destruct (Htot Hmax) as [m1 E1].
  destruct (Hpart m1 E1) as [H1 O1].
  destruct (run_emitted_operands p [[]]) as [_ Hchars];
    [repeat constructor|exact Hp|].
  destruct (run_scopes p [[]]) as [|sc [|? ?]]; try discriminate.
  inversion Hall as [|? ? Hsc _]; subst.
  destruct (step_scopes 41 m1 sc [] H1 Hall eq_refl) as [_ Hstep].
  simpl in Hstep. destruct Hstep as (m2 & E2 & H2 & O2).
  change (next_scopes 41 [sc]) with (@nil (list Z)) in H2.
  change (emitted 41 [sc]) with sc in O2.
  exists m2. split; [|split].
  - rewrite walk_app, (bind_ok _ _ _ _ _ E1). cbv beta.
    simpl. rewrite (bind_ok _ _ _ _ _ E2). reflexivity.
  - exact H2.
  - rewrite O2, O1. apply Forall_app. split; [exact Hchars|].
    apply operators_expression_chars, (pending_operators sc Hsc).
Qed.

(** X12.  After a close bracket that has no open bracket (following a
    sequence in which every bracket is matched, at most 20 open at a time),
    the end of the input, an operator or another close bracket makes the
    program read the byte below the block: the handlers of these start with a
    pop, and the stack pointer is one below the bottom.  Up to there only
    operands and operators have been printed. *)
Theorem unmatched_close_reads_below (p rest : list Z) (c : Z) :
  balanced p ->
  (max_nesting 0 p <= 20)%nat ->
  c = 0 \/ is_operator c = true \/ c = 41 ->
  exists m,
    convert (p ++ 41 :: c :: rest) main_machine = Undefined m /\
    stack_top m = -1 /\
    Forall (fun x => expression_char x = true) (stdout m).
Proof.
  intros Hb Hmax Hc.
  destruct (walk_unmatched_close p Hb Hmax) as (m & E & H & Hchars).
  exists m. split; [|split; [apply H|exact Hchars]].
  change (p ++ 41 :: c :: rest) with (p ++ [41] ++ c :: rest).
  rewrite app_assoc, convert_app, (bind_ok _ _ _ _ _ E).
  2:{ apply Forall_app. split; [apply Hb|repeat constructor]. }
  cbv beta. simpl.
  assert (Hchar : is_char c).
  { destruct Hc as [->|[Hop| ->]]; [unfold is_char; lia| |unfold is_char; lia].
    destruct (is_operator_cases c Hop) as [|[|[|]]]; unfold is_char; lia. }
  rewrite dispatch_classify by assumption.
  destruct Hc as [->|[Hop| ->]].
  - simpl. unfold handle_end.
    apply bind_undefined, pop_print_below, H.
  - unfold is_operator in Hop. apply orb_prop in Hop as [Ha|Hm].
    + rewrite (classify_is_add c Ha). simpl. unfold handle_add_sub.
      apply bind_undefined, pop_print_below, H.
    + rewrite (classify_is_mul c Hm). simpl. unfold handle_mul_div.
      apply bind_undefined, pop_mul_div_print_below, H.
  - simpl. unfold handle_close_bracket.
    apply bind_undefined, pop_print_below, H.
Qed.

Lemma unmatched_close_reads_below_witness :
  exists m,
    convert (cstring "(a+b)*c" ++ 41 :: 45 :: cstring "d") main_machine
    = Undefined m /\
    stack_top m = -1 /\
    Forall (fun x => expression_char x = true) (stdout m).
Proof.
  apply (unmatched_close_reads_below (cstring "(a+b)*c") (cstring "d") 45).
  - split; [repeat constructor|reflexivity].
  - vm_compute. lia.
  - right. left. reflexivity.
Defined.

(** ** Short inputs always fit *)

Lemma next_scopes_grows c sc outer :
  (length (flatten (next_scopes c (sc :: outer)))
   <= S (length (flatten (sc :: outer))))%nat.
Proof.
  unfold next_scopes.
  destruct (classify c); try destruct sc as [|x ops]; try destruct (is_mul x);
    cbn [tl]; rewrite ?flatten_cons, ?length_app; simpl;
    rewrite ?length_app; simpl; lia.
Qed.

Lemma walk_short p :
  forall m scs d d',
    length scs = S d -> nesting d p = Some d' ->
    stack_is (flatten scs) m ->
    Forall (fun ops => pending ops = true) scs ->
    Forall (fun c => in_alphabet c = true) p ->
    (length (flatten scs) + length p <= Z.to_nat MAX_STACK_DEPTH)%nat ->
    exists m', walk p m = Ok tt m'.
Proof.
  induction p as [|c rest IH]; intros m scs d d' Hlen Hnest H Hall Hp Hcap.
  - exists m. reflexivity.
  - destruct scs as [|sc outer]; [discriminate|].
    simpl in Hlen. injection Hlen as Hlen.
    inversion Hp as [|? ? Hc Hrest]; subst.
    destruct (nesting_cons _ _ _ _ Hnest) as (d1 & Hn1 & Hl1 & _).
    specialize (Hl1 sc outer eq_refl).
    pose proof (next_scopes_pending c sc outer Hall Hc) as Hall1.
    pose proof (next_scopes_grows c sc outer) as Hgrow.
    destruct (step_scopes c m sc outer H Hall Hc) as [_ Hstep].
    simpl length in Hcap.
    case_decide as Hd; [|lia].
    destruct Hstep as (m1 & E1 & H1 & _).
    change (walk (c :: rest) m) with ((step c ;; walk rest) m).
    rewrite (bind_ok _ _ _ _ _ E1). cbv beta.
    apply (IH m1 _ d1 d' Hl1 Hn1 H1 Hall1 Hrest). lia.
Qed.

(** X13.  A sequence of at most 63 operands, operators and brackets with no
    unmatched close bracket is always converted inside the block, however its
    brackets are nested: every character pushes at most one entry.  The run
    comes to its end with the stack pointer inside the block. *)
Theorem short_input_fits (str : list Z) (d' : nat) :
  Forall (fun c => in_alphabet c = true) str ->
  nesting 0 str = Some d' ->
  (length str <= 63)%nat ->
  exists m, convert str main_machine = Ok tt m /\
            0 <= stack_top m < MAX_STACK_DEPTH.
Proof.
  intros Hstr Hnest Hlen.
  destruct (walk_short str main_machine [[]] 0%nat d' eq_refl Hnest
              main_machine_stack ltac:(repeat constructor) Hstr) as [m1 E1].
  { unfold MAX_STACK_DEPTH. simpl. lia. }
  destruct (convert_after_walk str d' m1 Hstr Hnest E1)
    as (m & out & E & _ & _ & _ & Hstack & _).
  exists m. split; [exact E|].
  pose proof (stack_is_length _ _ Hstack) as Hle.
  destruct Hstack as (_ & -> & _). rewrite flatten_cons in *. simpl in *.
  unfold MAX_STACK_DEPTH in *. lia.
Qed.

Lemma short_input_fits_witness :
  exists m, convert (replicate 30 40 ++ cstring "a+b*c") main_machine = Ok tt m /\
            0 <= stack_top m < MAX_STACK_DEPTH.
Proof.
  apply (short_input_fits (replicate 30 40 ++ cstring "a+b*c") 30).
  - repeat constructor.
  - reflexivity.
  - vm_compute. lia.
Defined.
